(** * Voice authentication core of the robotic-arm controller (voiceAuth.js)

    A shallow embedding of the class [VoiceAuthenticator]: the MFCC feature
    extractor, the embedding generator, the cosine matcher and the
    enrollment / verification state machine; and of the two classes around
    it, [SerialCommunicator] (serialComm.js) and [RoboticArmController]
    (main.js).

    Numbers.  JavaScript numbers are idealised as real numbers ([R]); rounding,
    overflow and NaN are outside the model.  Exceptions that the JavaScript
    run time raises on the paths the code takes (a [RangeError] of
    [new Array(n)] for a non-integral [n], a [TypeError] when a property of
    [undefined] is read) are kept, as outcomes of the type [result]. *)

From Stdlib Require Import String.
From Stdlib Require Import Reals Lra Lia Psatz ZArith Bool List.
Import ListNotations.
Open Scope R_scope.

(** ** JavaScript run-time conventions *)

Module Js.

(** Exceptions raised on the modelled paths. *)
Inductive exn : Type :=
| RangeError   (* new Array(n) with n not an integer *)
| TypeError    (* property read on undefined *)
| ModelError.  (* anything thrown by the TensorFlow.js collaborator *)

(** Outcome of a call: a value, an exception, or a loop that never ends. *)
Inductive result (A : Type) : Type :=
| Ok (a : A)
| Throw (e : exn)
| Diverge.
Arguments Ok {A} a.
Arguments Throw {A} e.
Arguments Diverge {A}.

Definition bind {A B} (m : result A) (k : A -> result B) : result B :=
  match m with
  | Ok a => k a
  | Throw e => Throw e
  | Diverge => Diverge
  end.

(** [try { body } catch (error) { handler }] *)
Definition try_catch {A} (body : result A) (handler : exn -> result A) : result A :=
  match body with
  | Ok a => Ok a
  | Throw e => handler e
  | Diverge => Diverge
  end.

(** [arr.map(f)] where [f] may throw: the first exception aborts the map. *)
Fixpoint mapM {A B} (f : A -> result B) (l : list A) : result (list B) :=
  match l with
  | [] => Ok []
  | x :: xs =>
      bind (f x) (fun y => bind (mapM f xs) (fun ys => Ok (y :: ys)))
  end.

(** [arr.map((x, n) => f x n)] *)
Definition mapi {A B} (f : A -> nat -> B) (l : list A) : list B :=
  map (fun p => f (snd p) (fst p)) (combine (seq 0 (length l)) l).

(** [for (let i = lo; i < hi; i++) body] threading the mutated variables. *)
Definition for_loop {S : Type} (lo hi : nat) (body : nat -> S -> S) (s : S) : S :=
  fold_left (fun acc i => body i acc) (seq lo (hi - lo)) s.

(** Number of iterations of [for (let k = 0; k < x; k++)] for a real bound. *)
Definition iterations_below (x : R) : nat := Z.to_nat (Zceil x).

(** [Math.max(...xs)]; [None] stands for the [-Infinity] of an empty
    argument list. *)
Definition Math_max (xs : list R) : option R :=
  match xs with
  | [] => None
  | x :: rest => Some (fold_left Rmax rest x)
  end.

(** [Math.floor], used where the result is a length or an index. *)
Definition Math_floor (x : R) : nat := Z.to_nat (Zfloor x).

(** [Math.log10] and [Math.pow(10, x)] *)
Definition Math_log10 (x : R) : R := ln x / ln 10.
Definition Math_pow10 (x : R) : R := Rpower 10 x.

(** [arr[i]] on a numeric array; the code reads in range only. *)
Definition get (l : list R) (i : nat) : R := nth i l 0.

(** [arr[i] = v] on an [Array]: in range it overwrites, past the end the
    array grows. *)
Fixpoint set (l : list R) (i : nat) (v : R) : list R :=
  match i, l with
  | O, [] => [v]
  | O, _ :: t => v :: t
  | S j, [] => 0 :: set [] j v
  | S j, h :: t => h :: set t j v
  end.

(** [arr[i] = v] on a [Float32Array]: a write past the end is ignored. *)
Fixpoint typed_set (l : list R) (i : nat) (v : R) : list R :=
  match i, l with
  | _, [] => []
  | O, _ :: t => v :: t
  | S j, h :: t => h :: typed_set t j v
  end.

(** [arr.slice(i, j)] *)
Definition slice (l : list R) (i j : nat) : list R := firstn (j - i) (skipn i l).

(** [new Array(len)]: a [RangeError] unless [len] is a non-negative integer;
    the slots are holes, which the code fills before it reads them. *)
Definition new_Array (len : R) : result (list R) :=
  if Req_dec_T (IZR (Zfloor len)) len then
    if Rle_dec 0 len then Ok (repeat 0 (Z.to_nat (Zfloor len)))
    else Throw RangeError
  else Throw RangeError.

(** [arr.reduce((a, b) => a + b)] without an initial value. *)
Definition reduce_sum (l : list R) : result R :=
  match l with
  | [] => Throw TypeError
  | x :: rest => Ok (fold_left Rplus rest x)
  end.

End Js.

Import Js.

Notation "x <- m ;; k" := (Js.bind m (fun x => k))
  (at level 61, m at next level, right associativity).

(** The guard constant written [1e-8] in the source. *)
Definition epsilon : R := / 100000000.

(** ** Matcher: cosineSimilarity *)

Module Matcher.

(** The three accumulators of the loop. *)
Record acc : Type := mkAcc { dotProduct : R; norm1 : R; norm2 : R }.

Definition cosine_body (embedding1 embedding2 : list R) (i : nat) (a : acc) : acc :=
  {| dotProduct := dotProduct a + get embedding1 i * get embedding2 i;
     norm1 := norm1 a + get embedding1 i * get embedding1 i;
     norm2 := norm2 a + get embedding2 i * get embedding2 i |}.

Definition cosine_loop (embedding1 embedding2 : list R) : acc :=
  for_loop 0 (Nat.min (length embedding1) (length embedding2))
    (cosine_body embedding1 embedding2) (mkAcc 0 0 0).

(** The function of the source with its guard constant as a parameter. *)
Definition cosineSimilarity_eps (e : R) (embedding1 embedding2 : list R) : R :=
  let a := cosine_loop embedding1 embedding2 in
  dotProduct a / (sqrt (norm1 a) * sqrt (norm2 a) + e).

Definition cosineSimilarity (embedding1 embedding2 : list R) : R :=
  cosineSimilarity_eps epsilon embedding1 embedding2.

(** The specification's vocabulary: dot product and Euclidean norm of
    vectors, and truncation to the common prefix. *)
Fixpoint dot (a b : list R) : R :=
  match a, b with
  | x :: a', y :: b' => x * y + dot a' b'
  | _, _ => 0
  end.

Definition norm (a : list R) : R := sqrt (dot a a).

Definition common (a b : list R) : nat := Nat.min (length a) (length b).

Definition spec_cosine (e : R) (a b : list R) : R :=
  let m := common a b in
  dot (firstn m a) (firstn m b)
  / (norm (firstn m a) * norm (firstn m b) + e).

End Matcher.

(** ** Spectral feature extractor: extractMFCC and its stages *)

Module Extractor.

(** What [extractMFCC] reads of an [AudioBuffer]. *)
Record AudioBuffer : Type := mkAudio { channelData : list R; sampleRate : R }.

Definition normalizeAudio (audioData : list R) : list R :=
  match Math_max (map Rabs audioData) with
  | Some max => map (fun x => x / (max + epsilon)) audioData
  | None => map (fun _ => 0) audioData   (* x / -Infinity; no sample to map *)
  end.

Definition alpha : R := 0.97.

Definition preEmphasis (signal : list R) : list R :=
  let emphasized := repeat 0 (length signal) in
  let emphasized := typed_set emphasized 0 (get signal 0) in
  for_loop 1 (length signal)
    (fun i emphasized =>
       typed_set emphasized i (get signal i - alpha * get signal (i - 1)))
    emphasized.

(** The loop of [frameSignal]; it never ends when [frameStep] is 0 and one
    frame fits, which the fuel detects. *)
Fixpoint frame_loop (fuel : nat) (signal : list R) (frameLength frameStep i : nat)
  (frames : list (list R)) : result (list (list R)) :=
  match fuel with
  | O => Diverge
  | S fuel' =>
      if (i + frameLength <=? length signal)%nat
      then frame_loop fuel' signal frameLength frameStep (i + frameStep)
             (frames ++ [slice signal i (i + frameLength)])
      else Ok frames
  end.

Definition frameSignal (signal : list R) (frameLength frameStep : nat)
  : result (list (list R)) :=
  frame_loop (length signal + 2) signal frameLength frameStep 0 [].

Definition hammingWindow (frame : list R) : list R :=
  let N := INR (length frame) in
  mapi (fun x n => x * (0.54 - 0.46 * cos (2 * PI * INR n / (N - 1)))) frame.

(** The inner loop of [computePowerSpectrum]: the pair (real, imag). *)
Definition dft_body (frame : list R) (N : R) (k n : nat) (ri : R * R) : R * R :=
  let angle := - 2 * PI * INR k * INR n / N in
  (fst ri + get frame n * cos angle, snd ri + get frame n * sin angle).

Definition computePowerSpectrum (frame : list R) : result (list R) :=
  let N := INR (length frame) in
  spectrum <- new_Array (N / 2) ;;
  Ok (for_loop 0 (iterations_below (N / 2))
        (fun k spectrum =>
           let ri := for_loop 0 (length frame) (dft_body frame N k) (0, 0) in
           set spectrum k ((fst ri * fst ri + snd ri * snd ri) / N))
        spectrum).

Definition hzToMel (hz : R) : R := 2595 * Math_log10 (1 + hz / 700).

Definition melToHz (mel : R) : R := 700 * (Math_pow10 (mel / 2595) - 1).

(** The boundary points of [createMelFilterBank], in Mel, in Hz and as bins. *)
Definition melPoints (numFilters : nat) (sampleRate : R) : list R :=
  let lowFreqMel := hzToMel 0 in
  let highFreqMel := hzToMel (sampleRate / 2) in
  for_loop 0 (numFilters + 2)
    (fun i melPoints =>
       melPoints ++ [lowFreqMel + (highFreqMel - lowFreqMel) * INR i
                                  / (INR numFilters + 1)])
    [].

Definition hzPoints (numFilters : nat) (sampleRate : R) : list R :=
  map melToHz (melPoints numFilters sampleRate).

Definition bins (numFilters fftSize : nat) (sampleRate : R) : list nat :=
  map (fun hz => Math_floor ((INR fftSize + 1) * hz / sampleRate))
      (hzPoints numFilters sampleRate).

Definition bin (bs : list nat) (i : nat) : nat := nth i bs O.

(** One triangular filter: the rising and the falling ramp. *)
Definition triangle (bs : list nat) (fftSize i : nat) : list R :=
  let filter := repeat 0 fftSize in
  let filter :=
    for_loop (bin bs (i - 1)) (bin bs i)
      (fun j filter =>
         set filter j ((INR j - INR (bin bs (i - 1)))
                       / (INR (bin bs i) - INR (bin bs (i - 1)))))
      filter in
  for_loop (bin bs i) (bin bs (i + 1))
    (fun j filter =>
       set filter j ((INR (bin bs (i + 1)) - INR j)
                     / (INR (bin bs (i + 1)) - INR (bin bs i))))
    filter.

Definition createMelFilterBank (numFilters fftSize : nat) (sampleRate : R)
  : list (list R) :=
  let bs := bins numFilters fftSize sampleRate in
  for_loop 1 (numFilters + 1)
    (fun i melFilters => melFilters ++ [triangle bs fftSize i])
    [].

Definition numFilters_default : nat := 26.

Definition applyMelFilterBank (powerSpectrum : list R) (sampleRate : R) : list R :=
  let numFilters := numFilters_default in
  let melFilters := createMelFilterBank numFilters (length powerSpectrum) sampleRate in
  for_loop 0 numFilters
    (fun i melSpectrum =>
       let melSpectrum :=
         for_loop 0 (length powerSpectrum)
           (fun j melSpectrum =>
              set melSpectrum i
                (get melSpectrum i
                 + get powerSpectrum j * get (nth i melFilters []) j))
           melSpectrum in
       set melSpectrum i (ln (get melSpectrum i + epsilon)))
    (repeat 0 numFilters).

Definition numCoeffs_default : nat := 13.

Definition computeDCT (melSpectrum : list R) : list R :=
  let N := INR (length melSpectrum) in
  for_loop 0 numCoeffs_default
    (fun k dct =>
       let sum :=
         for_loop 0 (length melSpectrum)
           (fun n sum =>
              sum + get melSpectrum n * cos (PI * INR k * (INR n + 0.5) / N))
           0 in
       dct ++ [sum])
    [].

Definition averageFeatures (features : list (list R)) : result (list R) :=
  match features with
  | [] => Throw TypeError                     (* features[0].length *)
  | first :: _ =>
      let numFeatures := length first in
      let avg :=
        fold_left
          (fun avg feature =>
             for_loop 0 numFeatures
               (fun i avg => set avg i (get avg i + get feature i)) avg)
          features (repeat 0 numFeatures) in
      Ok (map (fun x => x / INR (length features)) avg)
  end.

Definition frameLength_of (sampleRate : R) : nat := Math_floor (0.025 * sampleRate).
Definition frameStep_of (sampleRate : R) : nat := Math_floor (0.010 * sampleRate).

Definition extractMFCC (audioBuffer : AudioBuffer) : result (list R) :=
  let audioData := channelData audioBuffer in
  let sampleRate := sampleRate audioBuffer in
  let normalizedAudio := normalizeAudio audioData in
  let emphasized := preEmphasis normalizedAudio in
  let frameLength := frameLength_of sampleRate in
  let frameStep := frameStep_of sampleRate in
  frames <- frameSignal emphasized frameLength frameStep ;;
  powerSpectrum <-
    mapM (fun frame => computePowerSpectrum (hammingWindow frame)) frames ;;
  let melSpectrum :=
    map (fun spectrum => applyMelFilterBank spectrum sampleRate) powerSpectrum in
  let mfccs := map computeDCT melSpectrum in
  averageFeatures mfccs.

End Extractor.

(** ** Embedding generator: extractDeepEmbedding *)

Module Generator.

(** The TensorFlow.js collaborator.  [embed features] stands for the chain
    [tf.tensor3d], [model.predict], [embedding.array()], the two [dispose]
    calls and the read of row 0; it returns, or one of its steps throws
    ([None]). *)
Record TfModel : Type := mkModel { embed : list R -> option (list R) }.

Definition tf_chain (m : TfModel) (features : list R) : result (list R) :=
  match embed m features with
  | Some embeddingRow => Ok embeddingRow
  | None => Throw ModelError
  end.

(** [while (features.length < 128) features.push(0)] *)
Fixpoint pad_loop (fuel : nat) (features : list R) : list R :=
  match fuel with
  | O => features
  | S fuel' =>
      if (length features <? 128)%nat then pad_loop fuel' (features ++ [0])
      else features
  end.

Definition extractDeepEmbedding (modelLoaded : bool) (model : option TfModel)
  (mfcc : list R) : result (list R) :=
  match modelLoaded, model with
  | true, Some m =>
      try_catch
        (let features := slice mfcc 0 128 in
         let features := pad_loop 128 features in
         tf_chain m features)
        (fun error => Ok mfcc)
  | _, _ => Ok mfcc   (* fallback to MFCC *)
  end.

End Generator.

(** ** Orchestrator: the object, its environment and its methods *)

Module Orchestrator.

Import Matcher Extractor Generator.

(** A callback handed to [setTimeout] and not yet run.  The other timers of
    the class stop the recorder after three seconds (folded into the capture
    that a handler receives) and swap two panels of the page. *)
Inductive callback : Type :=
| UnlockSystem.   (* setTimeout(() => this.unlockSystem(), 1000) *)

(** The three [console.log] lines of a verification. *)
Inductive console_entry : Type :=
| SimilarityScores (similarities : list R)
| AverageSimilarity (avgSimilarity : R)
| MaxSimilarity (maxSimilarity : R).

(** The fields of the object, followed by what its methods do to the page:
    pending timers, dispatched window events, alerts, console output, and a
    ghost counter of the calls of [cosineSimilarity].  The DOM texts and
    styles are presentation and are left out. *)
Record VoiceAuthenticator : Type := mkVA {
  model : option TfModel;
  voiceEmbeddings : list (list R);
  recordingCount : nat;
  isLocked : bool;
  threshold : R;
  modelLoaded : bool;
  timers : list callback;
  dispatched : list string;
  alerts : list string;
  console : list console_entry;
  matcherCalls : nat
}.

Definition alert (this : VoiceAuthenticator) (msg : string) : VoiceAuthenticator :=
  mkVA (model this) (voiceEmbeddings this) (recordingCount this) (isLocked this)
       (threshold this) (modelLoaded this) (timers this) (dispatched this)
       (alerts this ++ [msg]) (console this) (matcherCalls this).

Definition setTimeout (this : VoiceAuthenticator) (cb : callback) : VoiceAuthenticator :=
  mkVA (model this) (voiceEmbeddings this) (recordingCount this) (isLocked this)
       (threshold this) (modelLoaded this) (timers this ++ [cb]) (dispatched this)
       (alerts this) (console this) (matcherCalls this).

Definition console_log (this : VoiceAuthenticator) (es : list console_entry)
  : VoiceAuthenticator :=
  mkVA (model this) (voiceEmbeddings this) (recordingCount this) (isLocked this)
       (threshold this) (modelLoaded this) (timers this) (dispatched this)
       (alerts this) (console this ++ es) (matcherCalls this).

Definition count_matcher (this : VoiceAuthenticator) (n : nat) : VoiceAuthenticator :=
  mkVA (model this) (voiceEmbeddings this) (recordingCount this) (isLocked this)
       (threshold this) (modelLoaded this) (timers this) (dispatched this)
       (alerts this) (console this) (matcherCalls this + n).

(** What the browser hands to the [onstop] handler of a recording. *)
Inductive capture : Type :=
| MicDenied                              (* getUserMedia rejects *)
| Recorded (audioBuffer : AudioBuffer).  (* decodeAudioData resolves *)

(** The constructor followed by [loadModel], which runs to its end inside
    it; [tf] is what [tf.sequential] returns, [None] when it throws. *)
Definition constructor (tf : option TfModel) : VoiceAuthenticator :=
  {| model := tf;
     voiceEmbeddings := [];
     recordingCount := 0;
     isLocked := true;
     threshold := 0.75;
     modelLoaded := match tf with Some _ => true | None => false end;
     timers := [];
     dispatched := [];
     alerts := [];
     console := [];
     matcherCalls := 0 |}.

(** Extraction followed by embedding, as both handlers run them. *)
Definition fingerprint (this : VoiceAuthenticator) (audioBuffer : AudioBuffer)
  : result (list R) :=
  mfcc <- extractMFCC audioBuffer ;;
  extractDeepEmbedding (modelLoaded this) (model this) mfcc.

(** [recordVoiceSample] together with the [onstop] handler it installs, run
    as one step.  A handler whose promise rejects leaves the object as it
    was, and so does one that never returns. *)
Definition recordVoiceSample (this : VoiceAuthenticator) (c : capture)
  : VoiceAuthenticator :=
  if negb (modelLoaded this) then
    alert this "Please wait for the AI model to load"
  else
    match c with
    | MicDenied =>
        alert this "Please allow microphone access for voice authentication"
    | Recorded audioBuffer =>
        match fingerprint this audioBuffer with
        | Ok embedding =>
            mkVA (model this) (voiceEmbeddings this ++ [embedding])
                 (S (recordingCount this)) (isLocked this) (threshold this)
                 (modelLoaded this) (timers this) (dispatched this)
                 (alerts this) (console this) (matcherCalls this)
        | _ => this
        end
    end.

(** The decision of the matcher on a list of similarity scores: average,
    maximum and verdict ([maxSimilarity > this.threshold]). *)
Definition decide (threshold : R) (similarities : list R) : result (R * R * bool) :=
  total <- reduce_sum similarities ;;
  let avgSimilarity := total / INR (length similarities) in
  match Math_max similarities with
  | Some maxSimilarity =>
      Ok (avgSimilarity, maxSimilarity,
          if Rlt_dec threshold maxSimilarity then true else false)
  | None => Throw TypeError   (* not reached: reduce has thrown *)
  end.

(** [authenticateVoice] together with the [onstop] handler it installs. *)
Definition authenticateVoice (this : VoiceAuthenticator) (c : capture)
  : VoiceAuthenticator :=
  if (length (voiceEmbeddings this) =? 0)%nat then
    alert this "No voice profile found. Please record samples first."
  else
    match c with
    | MicDenied => alert this "Microphone access required for authentication"
    | Recorded audioBuffer =>
        match fingerprint this audioBuffer with
        | Ok embedding =>
            let similarities :=
              map (fun storedEmbedding => cosineSimilarity embedding storedEmbedding)
                  (voiceEmbeddings this) in
            let this := count_matcher this (length (voiceEmbeddings this)) in
            match decide (threshold this) similarities with
            | Ok (avgSimilarity, maxSimilarity, accepted) =>
                let this :=
                  console_log this
                    [SimilarityScores similarities;
                     AverageSimilarity avgSimilarity;
                     MaxSimilarity maxSimilarity] in
                if accepted then setTimeout this UnlockSystem else this
            | _ => this
            end
        | _ => this
        end
    end.

Definition unlockSystem (this : VoiceAuthenticator) : VoiceAuthenticator :=
  mkVA (model this) (voiceEmbeddings this) (recordingCount this) false
       (threshold this) (modelLoaded this) (timers this)
       (dispatched this ++ ["voiceUnlocked"%string])
       (alerts this) (console this) (matcherCalls this).

(** The oldest pending timer fires. *)
Definition run_timer (this : VoiceAuthenticator) : VoiceAuthenticator :=
  match timers this with
  | [] => this
  | UnlockSystem :: rest =>
      unlockSystem
        (mkVA (model this) (voiceEmbeddings this) (recordingCount this)
              (isLocked this) (threshold this) (modelLoaded this) rest
              (dispatched this) (alerts this) (console this) (matcherCalls this))
  end.

Definition resetVoiceProfile (this : VoiceAuthenticator) : VoiceAuthenticator :=
  mkVA (model this) [] 0 true (threshold this) (modelLoaded this) (timers this)
       (dispatched this) (alerts this) (console this) (matcherCalls this).

Definition getLockedState (this : VoiceAuthenticator) : bool := isLocked this.

(** What can happen to the object after its construction. *)
Inductive action : Type :=
| RecordVoiceSample (c : capture)
| AuthenticateVoice (c : capture)
| TimerFires
| ResetVoiceProfile.

Definition step (this : VoiceAuthenticator) (a : action) : VoiceAuthenticator :=
  match a with
  | RecordVoiceSample c => recordVoiceSample this c
  | AuthenticateVoice c => authenticateVoice this c
  | TimerFires => run_timer this
  | ResetVoiceProfile => resetVoiceProfile this
  end.

Definition run (this : VoiceAuthenticator) (actions : list action) : VoiceAuthenticator :=
  fold_left step actions this.

(** One enrollment capture per recorded buffer. *)
Definition captures (bufs : list AudioBuffer) : list action :=
  map (fun b => RecordVoiceSample (Recorded b)) bufs.

(** The states of the specification, read off the object. *)
Inductive phase : Type :=
| Enrolling (count : nat)   (* Locked is Enrolling 0 *)
| Ready
| Unlocked.

Definition target : nat := 3.

Definition phase_of (this : VoiceAuthenticator) : phase :=
  if isLocked this then
    if (recordingCount this <? target)%nat then Enrolling (recordingCount this)
    else Ready
  else Unlocked.

(** The number of ['voiceUnlocked'] notifications sent so far. *)
Definition notifications (this : VoiceAuthenticator) : nat :=
  length (filter (String.eqb "voiceUnlocked") (dispatched this)).

End Orchestrator.

(** ** Concrete collaborators used to run the object *)

Module Scenario.

Import Extractor Generator Orchestrator.

(** A model whose chain returns the same embedding row for every input. *)
Definition constant_model (row : list R) : TfModel := mkModel (fun _ => Some row).

(** 25 ms of silence at 8 kHz: exactly one frame of 200 samples. *)
Definition silence : AudioBuffer := mkAudio (repeat 0 200) 8000.

(** Three enrollment captures, then a verification and its timer. *)
Definition enrollment : list action :=
  [RecordVoiceSample (Recorded silence);
   RecordVoiceSample (Recorded silence);
   RecordVoiceSample (Recorded silence)].

Definition verification : list action :=
  [AuthenticateVoice (Recorded silence); TimerFires].

(** An object with one enrolled embedding orthogonal to what its model
    answers. *)
Definition stranger : VoiceAuthenticator :=
  {| model := Some (constant_model [0; 1]);
     voiceEmbeddings := [[1; 0]];
     recordingCount := 1;
     isLocked := true;
     threshold := 0.75;
     modelLoaded := true;
     timers := [];
     dispatched := [];
     alerts := [];
     console := [];
     matcherCalls := 0 |}.

End Scenario.

(** ** serialComm.js: the class SerialCommunicator *)

Module Serial.

(** [this.commandTimers]: an object used as a map from control ids to timer
    handles; an assignment to a key hides the older value. *)
Definition timer_map : Type := list (string * nat).

Fixpoint lookup (id : string) (m : timer_map) : option nat :=
  match m with
  | [] => None
  | (k, h) :: rest => if String.eqb id k then Some h else lookup id rest
  end.

(** The fields of the object, followed by what its methods do outside it:
    the timers that [setTimeout] holds for it (handle and command), the next
    free handle (handles are positive and never reused), the lines written to
    the port, the window events it dispatched and its alerts. *)
Record SerialCommunicator : Type := mkSC {
  port : bool;          (* this.port is not null *)
  writer : bool;        (* this.writer is not null *)
  isConnected : bool;
  commandTimers : timer_map;
  debounceDelay : nat;
  pending : list (nat * string);
  nextTimer : nat;
  wire : list string;
  announced : list string;
  alerts : list string
}.

Definition constructor : SerialCommunicator :=
  mkSC false false false [] 100 [] 1 [] [] [].

(** What [navigator.serial] answers to [connect]. *)
Inductive port_request : Type :=
| UserCancels   (* requestPort rejects *)
| OpenFails     (* port.open or getWriter throws *)
| PortOpens.

Definition connect (this : SerialCommunicator) (r : port_request)
  : SerialCommunicator :=
  match r with
  | UserCancels =>
      mkSC (port this) (writer this) (isConnected this) (commandTimers this)
           (debounceDelay this) (pending this) (nextTimer this) (wire this)
           (announced this)
           (alerts this ++ ["Failed to connect to Arduino. Please try again."%string])
  | OpenFails =>
      mkSC true (writer this) (isConnected this) (commandTimers this)
           (debounceDelay this) (pending this) (nextTimer this) (wire this)
           (announced this)
           (alerts this ++ ["Failed to connect to Arduino. Please try again."%string])
  | PortOpens =>
      mkSC true true true (commandTimers this)
           (debounceDelay this) (pending this) (nextTimer this) (wire this)
           (announced this ++ ["arduinoConnected"%string]) (alerts this)
  end.

(** The line feed that [sendCommand] appends. *)
Definition newline : string := String (Ascii.ascii_of_nat 10) EmptyString.

(** [sendCommand]: the new object and the boolean it resolves to;
    [delivered] tells whether [writer.write] resolves. *)
Definition sendCommand (this : SerialCommunicator) (command : string)
  (delivered : bool) : SerialCommunicator * bool :=
  if negb (writer this) || negb (isConnected this) then (this, false)
  else if delivered then
    (mkSC (port this) (writer this) (isConnected this) (commandTimers this)
          (debounceDelay this) (pending this) (nextTimer this)
          (wire this ++ [(command ++ newline)%string])
          (announced this) (alerts this),
     true)
  else (this, false).

(** [clearTimeout(handle)] *)
Definition clearTimeout (handle : nat) (timers : list (nat * string))
  : list (nat * string) :=
  filter (fun t => negb (Nat.eqb (fst t) handle)) timers.

Definition sendDebounced (this : SerialCommunicator) (id command : string)
  : SerialCommunicator :=
  let timers :=
    match lookup id (commandTimers this) with
    | Some handle =>
        if Nat.eqb handle 0 then pending this   (* a falsy handle *)
        else clearTimeout handle (pending this)
    | None => pending this
    end in
  mkSC (port this) (writer this) (isConnected this)
       ((id, nextTimer this) :: commandTimers this)
       (debounceDelay this)
       (timers ++ [(nextTimer this, command)])
       (S (nextTimer this)) (wire this) (announced this) (alerts this).

(** The callback of a pending timer runs: [this.sendCommand(command)]. *)
Definition timer_fires (this : SerialCommunicator) (handle : nat)
  (delivered : bool) : SerialCommunicator :=
  match find (fun t => Nat.eqb (fst t) handle) (pending this) with
  | Some (_, command) =>
      fst (sendCommand
             (mkSC (port this) (writer this) (isConnected this)
                   (commandTimers this) (debounceDelay this)
                   (clearTimeout handle (pending this)) (nextTimer this)
                   (wire this) (announced this) (alerts this))
             command delivered)
  | None => this
  end.

Definition sendImmediate (this : SerialCommunicator) (command : string)
  (delivered : bool) : SerialCommunicator * bool :=
  sendCommand this command delivered.

Definition emergencyStop (this : SerialCommunicator) (delivered : bool)
  : SerialCommunicator * bool :=
  sendCommand this "STOP" delivered.

(** [disconnect]; [closed] tells whether [port.close] resolves.  When it
    throws, the writer is gone but [isConnected] keeps its value. *)
Definition disconnect (this : SerialCommunicator) (closed : bool)
  : SerialCommunicator :=
  if port this && negb closed then
    mkSC (port this) false (isConnected this) (commandTimers this)
         (debounceDelay this) (pending this) (nextTimer this) (wire this)
         (announced this) (alerts this)
  else
    mkSC false false false (commandTimers this)
         (debounceDelay this) (pending this) (nextTimer this) (wire this)
         (announced this) (alerts this).

Definition getConnectionState (this : SerialCommunicator) : bool :=
  isConnected this.

Definition setDebounceDelay (this : SerialCommunicator) (delay : nat)
  : SerialCommunicator :=
  mkSC (port this) (writer this) (isConnected this) (commandTimers this)
       delay (pending this) (nextTimer this) (wire this)
       (announced this) (alerts this).

(** What can happen to the object after its construction. *)
Inductive action : Type :=
| Connect (r : port_request)
| SendDebounced (id command : string)
| SendImmediate (command : string) (delivered : bool)
| EmergencyStop (delivered : bool)
| TimerFires (handle : nat) (delivered : bool)
| Disconnect (closed : bool)
| SetDebounceDelay (delay : nat).

Definition step (this : SerialCommunicator) (a : action) : SerialCommunicator :=
  match a with
  | Connect r => connect this r
  | SendDebounced id command => sendDebounced this id command
  | SendImmediate command delivered => fst (sendImmediate this command delivered)
  | EmergencyStop delivered => fst (emergencyStop this delivered)
  | TimerFires handle delivered => timer_fires this handle delivered
  | Disconnect closed => disconnect this closed
  | SetDebounceDelay delay => setDebounceDelay this delay
  end.

Definition run (this : SerialCommunicator) (actions : list action)
  : SerialCommunicator :=
  fold_left step actions this.

(** Timer handles as the browser hands them out: positive, never reused,
    all different; and every pending timer is the latest one of a control. *)
Definition well_formed (this : SerialCommunicator) : Prop :=
  (1 <= nextTimer this)%nat
  /\ (forall t, In t (pending this) -> (1 <= fst t < nextTimer this)%nat)
  /\ NoDup (map fst (pending this))
  /\ (forall t, In t (pending this) ->
        exists id, lookup id (commandTimers this) = Some (fst t)).

End Serial.

(** ** main.js: the class RoboticArmController *)

Module Arm.

Import Orchestrator.

(** The four sliders and the seven controls that [updateControlsState]
    enables or disables. *)
Inductive slider : Type := Base | Mid | Near | Claw.

Inductive control : Type :=
| SliderOf (s : slider)
| ClawOpenBtn
| ClawCloseBtn
| EmergencyStopBtn.

Definition slider_eqb (a b : slider) : bool :=
  match a, b with
  | Base, Base | Mid, Mid | Near, Near | Claw, Claw => true
  | _, _ => false
  end.

(** The two modules, then the page: the value of each slider, the text of
    its display, the [disabled] flag of each control, and the number of
    times the alert of the emergency stop was shown. *)
Record RoboticArmController : Type := mkArm {
  voiceAuth : VoiceAuthenticator;
  serialComm : Serial.SerialCommunicator;
  value : slider -> string;
  display : slider -> string;
  disabled : control -> bool;
  stopAlerts : nat
}.

(** The id and the command letter that the listener of a slider uses. *)
Definition id_of (s : slider) : string :=
  match s with
  | Base => "base" | Mid => "mid" | Near => "near" | Claw => "claw"
  end.

Definition letter_of (s : slider) : string :=
  match s with
  | Base => "B:" | Mid => "M:" | Near => "N:" | Claw => "C:"
  end.

Definition with_slider (f : slider -> string) (s : slider) (v : string)
  : slider -> string :=
  fun s' => if slider_eqb s' s then v else f s'.

(** The [input] listener of a slider; [v] is [e.target.value]. *)
Definition slider_input (this : RoboticArmController) (s : slider) (v : string)
  : RoboticArmController :=
  mkArm (voiceAuth this)
        (Serial.sendDebounced (serialComm this) (id_of s) (letter_of s ++ v))
        (with_slider (value this) s v)
        (with_slider (display this) s v)
        (disabled this) (stopAlerts this).

Definition clawOpen_click (this : RoboticArmController) (delivered : bool)
  : RoboticArmController :=
  mkArm (voiceAuth this)
        (fst (Serial.sendImmediate (serialComm this) "C:0" delivered))
        (with_slider (value this) Claw "0")
        (with_slider (display this) Claw "0")
        (disabled this) (stopAlerts this).

Definition clawClose_click (this : RoboticArmController) (delivered : bool)
  : RoboticArmController :=
  mkArm (voiceAuth this)
        (fst (Serial.sendImmediate (serialComm this) "C:1" delivered))
        (with_slider (value this) Claw "20")
        (with_slider (display this) Claw "20")
        (disabled this) (stopAlerts this).

Definition updateControlsState (this : RoboticArmController)
  : RoboticArmController :=
  let isUnlocked := negb (getLockedState (voiceAuth this)) in
  let isConnected := Serial.getConnectionState (serialComm this) in
  let enableControls := isUnlocked && isConnected in
  mkArm (voiceAuth this) (serialComm this) (value this) (display this)
        (fun _ => negb enableControls) (stopAlerts this).

Definition onVoiceUnlocked (this : RoboticArmController) : RoboticArmController :=
  updateControlsState this.

Definition onArduinoConnected (this : RoboticArmController) : RoboticArmController :=
  updateControlsState this.

Definition disableAllControls (this : RoboticArmController)
  : RoboticArmController :=
  mkArm (voiceAuth this) (serialComm this) (value this) (display this)
        (fun _ => true) (stopAlerts this).

(** [handleEmergencyStop]; [confirmed] is the answer to [confirm]. *)
Definition handleEmergencyStop (this : RoboticArmController)
  (confirmed delivered : bool) : RoboticArmController :=
  if confirmed then
    let (serial, success) := Serial.emergencyStop (serialComm this) delivered in
    let this := mkArm (voiceAuth this) serial (value this) (display this)
                      (disabled this) (stopAlerts this) in
    if success then
      disableAllControls
        (mkArm (voiceAuth this) (serialComm this) (value this) (display this)
               (disabled this)
               (S (stopAlerts this)))
    else this
  else this.

(** [resetToDefault]; the booleans tell which of the four writes resolve. *)
Definition resetToDefault (this : RoboticArmController) (d1 d2 d3 d4 : bool)
  : RoboticArmController :=
  let s1 := fst (Serial.sendImmediate (serialComm this) "B:80" d1) in
  let s2 := fst (Serial.sendImmediate s1 "M:95" d2) in
  let s3 := fst (Serial.sendImmediate s2 "N:45" d3) in
  let s4 := fst (Serial.sendImmediate s3 "C:0" d4) in
  let values :=
    fun s => match s with
             | Base => "80" | Mid => "95" | Near => "45" | Claw => "0"
             end%string in
  mkArm (voiceAuth this) s4 values values (disabled this) (stopAlerts this).

(** The constructor: the two modules are built and the listeners attached;
    [html_disabled] is the [disabled] attribute that the page gives to each
    control, and [html_value] the initial value of each slider. *)
Definition constructor (tf : option Generator.TfModel)
  (html_value : slider -> string) (html_disabled : control -> bool)
  : RoboticArmController :=
  mkArm (Orchestrator.constructor tf) Serial.constructor html_value html_value
        html_disabled 0.

(** What can happen to the page.  An event that one of the modules
    dispatches on the window runs its listener at once. *)
Inductive action : Type :=
| Voice (a : Orchestrator.action)
| Port (a : Serial.action)
| SliderInput (s : slider) (v : string)
| ClawOpenClick (delivered : bool)
| ClawCloseClick (delivered : bool)
| EmergencyStopClick (confirmed delivered : bool)
| ResetToDefault (d1 d2 d3 d4 : bool).

Definition step (this : RoboticArmController) (a : action) : RoboticArmController :=
  match a with
  | Voice v =>
      let after := Orchestrator.step (voiceAuth this) v in
      let this' := mkArm after (serialComm this) (value this) (display this)
                         (disabled this) (stopAlerts this) in
      if (length (dispatched (voiceAuth this)) <? length (dispatched after))%nat
      then onVoiceUnlocked this' else this'
  | Port p =>
      let after := Serial.step (serialComm this) p in
      let this' := mkArm (voiceAuth this) after (value this) (display this)
                         (disabled this) (stopAlerts this) in
      if (length (Serial.announced (serialComm this))
          <? length (Serial.announced after))%nat
      then onArduinoConnected this' else this'
  | SliderInput s v => slider_input this s v
  | ClawOpenClick delivered => clawOpen_click this delivered
  | ClawCloseClick delivered => clawClose_click this delivered
  | EmergencyStopClick confirmed delivered =>
      handleEmergencyStop this confirmed delivered
  | ResetToDefault d1 d2 d3 d4 => resetToDefault this d1 d2 d3 d4
  end.

Definition run (this : RoboticArmController) (actions : list action)
  : RoboticArmController :=
  fold_left step actions this.

End Arm.

(** * Properties *)

Import Matcher Extractor Generator Orchestrator Scenario.

(** ** Loops *)

Lemma fold_left_seq_shift {S : Type} (body : nat -> S -> S) (n lo : nat) (s : S) :
  fold_left (fun acc i => body i acc) (seq (Datatypes.S lo) n) s
  = fold_left (fun acc i => body (Datatypes.S i) acc) (seq lo n) s.
Proof.
  revert lo s. induction n as [|n IH]; intros lo s; simpl.
  - reflexivity.
  - apply IH.
Qed.

Lemma fold_left_seq_ext {S : Type} (f g : nat -> S -> S) (n lo : nat) (s : S) :
  (forall i acc, (lo <= i < lo + n)%nat -> f i acc = g i acc) ->
  fold_left (fun acc i => f i acc) (seq lo n) s
  = fold_left (fun acc i => g i acc) (seq lo n) s.
Proof.
  revert lo s. induction n as [|n IH]; intros lo s H; simpl.
  - reflexivity.
  - rewrite H by lia. apply IH. intros i acc Hi. apply H. lia.
Qed.

(** A loop whose body keeps an invariant keeps it. *)
Lemma for_loop_invariant {S : Type} (P : S -> Prop) (lo hi : nat)
  (body : nat -> S -> S) (s : S) :
  P s -> (forall i acc, (lo <= i < hi)%nat -> P acc -> P (body i acc)) ->
  P (for_loop lo hi body s).
Proof.
  unfold for_loop. intros Hs Hbody.
  assert (G : forall n l acc, (l + n <= Nat.max lo hi)%nat -> (lo <= l)%nat ->
              (l + n <= hi \/ n = O)%nat -> P acc ->
              P (fold_left (fun acc i => body i acc) (seq l n) acc)).
  { induction n as [|n IH]; intros l acc H1 H2 H3 Hacc; simpl.
    - exact Hacc.
    - apply IH; try lia. apply Hbody; [lia | exact Hacc]. }
  apply G; try lia. exact Hs.
Qed.

(** ** The matcher *)

Lemma epsilon_pos : 0 < epsilon.
Proof. unfold epsilon. apply Rinv_0_lt_compat. lra. Qed.

Lemma dot_self_nonneg (a : list R) : 0 <= dot a a.
Proof.
  induction a as [|x a IH]; simpl.
  - lra.
  - nra.
Qed.

Lemma cosine_fold (a b : list R) (acc0 : acc) :
  fold_left (fun s i => cosine_body a b i s)
            (seq 0 (Nat.min (length a) (length b))) acc0
  = let m := common a b in
    mkAcc (dotProduct acc0 + dot (firstn m a) (firstn m b))
          (norm1 acc0 + dot (firstn m a) (firstn m a))
          (norm2 acc0 + dot (firstn m b) (firstn m b)).
Proof.
  revert b acc0. unfold common.
  induction a as [|x a IH]; intros b acc0.
  - simpl. destruct acc0; simpl. f_equal; ring.
  - destruct b as [|y b].
    + simpl. destruct acc0; simpl. f_equal; ring.
    + cbn [length Nat.min seq fold_left firstn dot].
      rewrite fold_left_seq_shift.
      rewrite (fold_left_seq_ext
                 (fun i s => cosine_body (x :: a) (y :: b) (S i) s)
                 (fun i s => cosine_body a b i s)) by reflexivity.
      rewrite IH. cbn. f_equal; ring.
Qed.

Lemma cosine_loop_spec (a b : list R) :
  cosine_loop a b
  = let m := common a b in
    mkAcc (dot (firstn m a) (firstn m b))
          (dot (firstn m a) (firstn m a))
          (dot (firstn m b) (firstn m b)).
Proof.
  unfold cosine_loop, for_loop. rewrite Nat.sub_0_r, cosine_fold.
  cbn. f_equal; ring.
Qed.

Lemma cauchy_step (x y d s1 s2 : R) :
  0 <= s1 -> 0 <= s2 -> - (s1 * s2) <= d <= s1 * s2 ->
  (x * y + d) * (x * y + d) <= (x * x + s1 * s1) * (y * y + s2 * s2).
Proof.
  intros H1 H2 [Hl Hu].
  assert (Ha := Rle_0_sqr (x * s2 - y * s1)).
  assert (Hb := Rle_0_sqr (x * s2 + y * s1)).
  unfold Rsqr in Ha, Hb.
  assert (Hd : d * d <= (s1 * s2) * (s1 * s2)) by nra.
  destruct (Rle_dec 0 (x * y)) as [Hxy|Hxy]; nra.
Qed.

Lemma square_le_bound (u v : R) : 0 <= v -> u * u <= v * v -> - v <= u <= v.
Proof. intros Hv H. split; nra. Qed.

(** Cauchy-Schwarz for the truncating dot product. *)
Lemma cauchy_schwarz (a b : list R) :
  - (norm a * norm b) <= dot a b <= norm a * norm b.
Proof.
  unfold norm. revert b. induction a as [|x a IH]; intros b.
  - simpl. rewrite sqrt_0, Rmult_0_l. lra.
  - destruct b as [|y b].
    + replace (dot [] []) with 0 by reflexivity.
      replace (dot (x :: a) []) with 0 by reflexivity.
      rewrite sqrt_0, Rmult_0_r. lra.
    + cbn [dot].
      assert (Hna := dot_self_nonneg a). assert (Hnb := dot_self_nonneg b).
      assert (Hsa := sqrt_pos (dot a a)). assert (Hsb := sqrt_pos (dot b b)).
      assert (HSa := sqrt_pos (x * x + dot a a)).
      assert (HSb := sqrt_pos (y * y + dot b b)).
      assert (Ea := sqrt_sqrt (dot a a) Hna). assert (Eb := sqrt_sqrt (dot b b) Hnb).
      assert (EA : sqrt (x * x + dot a a) * sqrt (x * x + dot a a) = x * x + dot a a)
        by (apply sqrt_sqrt; nra).
      assert (EB : sqrt (y * y + dot b b) * sqrt (y * y + dot b b) = y * y + dot b b)
        by (apply sqrt_sqrt; nra).
      pose proof (cauchy_step x y (dot a b) _ _ Hsa Hsb (IH b)) as Hc.
      rewrite Ea, Eb in Hc.
      apply square_le_bound; [nra|].
      replace (sqrt (x * x + dot a a) * sqrt (y * y + dot b b)
               * (sqrt (x * x + dot a a) * sqrt (y * y + dot b b)))
        with ((x * x + dot a a) * (y * y + dot b b)).
      * exact Hc.
      * rewrite <- EA at 1. rewrite <- EB at 1. ring.
Qed.

Lemma ratio_bound (d D : R) : 0 < D -> - D <= d <= D -> -1 <= d / D <= 1.
Proof.
  intros HD [Hl Hu]. unfold Rdiv.
  assert (Hi : 0 < / D) by (apply Rinv_0_lt_compat; exact HD).
  assert (E : D * / D = 1) by (apply Rinv_r; lra).
  split; nra.
Qed.

Lemma spec_cosine_bounds (e : R) (a b : list R) :
  0 < e -> -1 <= spec_cosine e a b <= 1.
Proof.
  intros He. unfold spec_cosine.
  set (a' := firstn (common a b) a). set (b' := firstn (common a b) b).
  pose proof (cauchy_schwarz a' b') as Hcs.
  assert (0 <= norm a' * norm b').
  { unfold norm. apply Rmult_le_pos; apply sqrt_pos. }
  apply ratio_bound; lra.
Qed.

Lemma cosineSimilarity_eps_spec (e : R) (a b : list R) :
  cosineSimilarity_eps e a b = spec_cosine e a b.
Proof.
  unfold cosineSimilarity_eps, spec_cosine, norm.
  rewrite cosine_loop_spec. reflexivity.
Qed.

Lemma cosine_self (e : R) (a : list R) :
  cosineSimilarity_eps e a a = dot a a / (dot a a + e).
Proof.
  rewrite cosineSimilarity_eps_spec. unfold spec_cosine, common, norm.
  rewrite Nat.min_id, firstn_all.
  rewrite sqrt_sqrt by apply dot_self_nonneg. reflexivity.
Qed.

(** C5.  [cosineSimilarity a b] is the dot product divided by the product of
    the norms plus the guard 1e-8, all three taken over the first
    [min (length a) (length b)] components only; the result lies in [-1, 1];
    and for a non-zero vector the similarity with itself tends to 1 as the
    guard tends to 0. *)
Theorem cosineSimilarity_formula_and_bounds (a b : list R) :
  cosineSimilarity a b
  = dot (firstn (common a b) a) (firstn (common a b) b)
    / (norm (firstn (common a b) a) * norm (firstn (common a b) b) + epsilon)
  /\ -1 <= cosineSimilarity a b <= 1
  /\ (norm a <> 0 ->
      forall delta, 0 < delta ->
      exists e0, 0 < e0 /\
        forall e, 0 < e < e0 -> Rabs (cosineSimilarity_eps e a a - 1) < delta).
Proof.
  split; [|split].
  - unfold cosineSimilarity. rewrite cosineSimilarity_eps_spec. reflexivity.
  - unfold cosineSimilarity. rewrite cosineSimilarity_eps_spec.
    apply spec_cosine_bounds, epsilon_pos.
  - intros Hn delta Hdelta.
    pose proof (dot_self_nonneg a) as Hnn.
    assert (Hpos : 0 < dot a a).
    { destruct Hnn as [Hlt|Heq]; [exact Hlt|].
      exfalso. apply Hn. unfold norm. rewrite <- Heq. apply sqrt_0. }
    exists (delta * dot a a). split; [nra|].
    intros e [He0 He1]. rewrite cosine_self.
    assert (Hden : 0 < dot a a + e) by lra.
    replace (dot a a / (dot a a + e) - 1) with (- (e / (dot a a + e)))
      by (field; lra).
    rewrite Rabs_Ropp, Rabs_pos_eq.
    + apply Rmult_lt_reg_r with (dot a a + e); [exact Hden|].
      unfold Rdiv. rewrite Rmult_assoc, Rinv_l by lra. nra.
    + apply Rlt_le, Rdiv_lt_0_compat; lra.
Qed.

Lemma cosineSimilarity_formula_and_bounds_witness :
  norm [3; 4] <> 0
  /\ -1 <= cosineSimilarity [3; 4] [3; 4; 12] <= 1
  /\ exists e0, 0 < e0 /\
       forall e, 0 < e < e0 -> Rabs (cosineSimilarity_eps e [3; 4] [3; 4] - 1) < / 2.
Proof.
  assert (Hn : norm [3; 4] <> 0).
  { unfold norm. cbn [dot]. apply Rgt_not_eq, sqrt_lt_R0. lra. }
  split; [exact Hn|].
  destruct (cosineSimilarity_formula_and_bounds [3; 4] [3; 4; 12]) as [_ [Hb _]].
  split; [exact Hb|].
  destruct (cosineSimilarity_formula_and_bounds [3; 4] [3; 4]) as [_ [_ Hl]].
  apply (Hl Hn). lra.
Defined.

(** ** Arrays *)

Lemma typed_set_length (l : list R) (i : nat) (v : R) :
  length (typed_set l i v) = length l.
Proof.
  revert i. induction l as [|h t IH]; intros [|i]; simpl; auto.
Qed.

Lemma set_length_in_range (l : list R) (i : nat) (v : R) :
  (i < length l)%nat -> length (set l i v) = length l.
Proof.
  revert i. induction l as [|h t IH]; intros [|i] H; simpl in *; try lia.
  rewrite IH; lia.
Qed.

(** A loop that pushes one element per round builds the list of them. *)
Lemma for_loop_push {A : Type} (f : nat -> A) (lo hi : nat) (l : list A) :
  for_loop lo hi (fun i acc => acc ++ [f i]) l = l ++ map f (seq lo (hi - lo)).
Proof.
  unfold for_loop. generalize (hi - lo)%nat as n. intros n.
  revert lo l. induction n as [|n IH]; intros lo l; simpl.
  - now rewrite app_nil_r.
  - rewrite IH, <- app_assoc. reflexivity.
Qed.

Lemma mapi_length {A B : Type} (f : A -> nat -> B) (l : list A) :
  length (mapi f l) = length l.
Proof.
  unfold mapi. rewrite length_map, length_combine, length_seq. lia.
Qed.

(** ** Stages of the extractor: lengths *)

Lemma normalizeAudio_length (audioData : list R) :
  length (normalizeAudio audioData) = length audioData.
Proof.
  unfold normalizeAudio. destruct (Math_max _); apply length_map.
Qed.

Lemma preEmphasis_length (signal : list R) :
  length (preEmphasis signal) = length signal.
Proof.
  unfold preEmphasis.
  apply (for_loop_invariant (fun e => length e = length signal)).
  - rewrite typed_set_length. apply repeat_length.
  - intros i e _ He. now rewrite typed_set_length.
Qed.

Lemma hammingWindow_length (frame : list R) :
  length (hammingWindow frame) = length frame.
Proof. apply mapi_length. Qed.

Lemma slice_length (l : list R) (i j : nat) :
  (j <= length l)%nat -> length (slice l i j) = (j - i)%nat.
Proof.
  intros H. unfold slice. rewrite length_firstn, length_skipn. lia.
Qed.

(** ** Framing *)

Lemma frameSignal_short (signal : list R) (frameLength frameStep : nat) :
  (length signal < frameLength)%nat ->
  frameSignal signal frameLength frameStep = Ok [].
Proof.
  intros H. unfold frameSignal.
  replace (length signal + 2)%nat with (S (length signal + 1)) by lia.
  cbn [frame_loop]. destruct (Nat.leb_spec (0 + frameLength) (length signal)).
  - lia.
  - reflexivity.
Qed.

Lemma frame_loop_returns (P : list R -> Prop) (signal : list R)
  (frameLength frameStep : nat) :
  (1 <= frameStep)%nat ->
  (forall i, (i + frameLength <= length signal)%nat ->
             P (slice signal i (i + frameLength))) ->
  forall fuel i frames,
    (1 <= fuel)%nat -> (length signal + 2 <= fuel + i)%nat ->
    Forall P frames ->
    exists frames',
      frame_loop fuel signal frameLength frameStep i frames = Ok frames'
      /\ Forall P frames'
      /\ (length frames <= length frames')%nat
      /\ ((i + frameLength <= length signal)%nat -> (1 <= length frames')%nat).
Proof.
  intros Hstep HP. induction fuel as [|fuel IH]; intros i frames Hf Hfi Hall.
  - lia.
  - cbn [frame_loop].
    destruct (Nat.leb_spec (i + frameLength) (length signal)) as [Hle|Hgt].
    + destruct (IH (i + frameStep)%nat
                   (frames ++ [slice signal i (i + frameLength)]))
        as (frames' & E & Hall' & Hlen & _).
      * lia.
      * lia.
      * apply Forall_app. split; [exact Hall|].
        constructor; [|constructor]. now apply HP.
      * exists frames'. rewrite length_app in Hlen. simpl in Hlen.
        repeat split; auto; lia.
    + exists frames. repeat split; auto; lia.
Qed.

(** With a positive step the framing loop ends; every frame is a slice of
    [frameLength] samples, and there is one as soon as the signal holds one. *)
Lemma frameSignal_slices (P : list R -> Prop) (signal : list R)
  (frameLength frameStep : nat) :
  (1 <= frameStep)%nat ->
  (forall i, (i + frameLength <= length signal)%nat ->
             P (slice signal i (i + frameLength))) ->
  exists frames,
    frameSignal signal frameLength frameStep = Ok frames
    /\ Forall P frames
    /\ ((frameLength <= length signal)%nat -> (1 <= length frames)%nat).
Proof.
  intros Hstep HP.
  destruct (frame_loop_returns P signal frameLength frameStep Hstep HP
              (length signal + 2) 0 []) as (frames & E & Hall & _ & Hne).
  - lia.
  - lia.
  - constructor.
  - exists frames. repeat split; auto.
Qed.

Lemma frameSignal_returns (signal : list R) (frameLength frameStep : nat) :
  (1 <= frameStep)%nat ->
  exists frames,
    frameSignal signal frameLength frameStep = Ok frames
    /\ Forall (fun f => length f = frameLength) frames
    /\ ((frameLength <= length signal)%nat -> (1 <= length frames)%nat).
Proof.
  intros Hstep. apply frameSignal_slices; [exact Hstep|].
  intros i Hi. rewrite slice_length; lia.
Qed.

(** ** Array allocation and the power spectrum *)

Lemma new_Array_even (k : nat) :
  new_Array (INR (2 * k) / 2) = Ok (repeat 0 k).
Proof.
  assert (E : INR (2 * k) / 2 = IZR (Z.of_nat k)).
  { rewrite mult_INR, <- INR_IZR_INZ. simpl. field. }
  unfold new_Array. rewrite E, ZfloorZ.
  destruct (Req_dec_T _ _) as [_|Hn]; [|now elim Hn].
  destruct (Rle_dec 0 (IZR (Z.of_nat k))) as [_|Hn].
  - now rewrite Nat2Z.id.
  - elim Hn. apply IZR_le. lia.
Qed.

Lemma new_Array_odd (k : nat) :
  new_Array (INR (2 * k + 1) / 2) = Throw RangeError.
Proof.
  unfold new_Array.
  destruct (Req_dec_T _ _) as [He|_]; [|reflexivity].
  exfalso.
  assert (H2 : IZR (2 * Zfloor (INR (2 * k + 1) / 2)) = IZR (Z.of_nat (2 * k + 1))).
  { rewrite mult_IZR, He, <- INR_IZR_INZ. field. }
  apply eq_IZR in H2. lia.
Qed.

Lemma computePowerSpectrum_even (frame : list R) :
  Nat.even (length frame) = true ->
  exists spectrum, computePowerSpectrum frame = Ok spectrum.
Proof.
  intros H. apply Nat.even_spec in H. destruct H as [k Hk].
  unfold computePowerSpectrum. rewrite Hk, new_Array_even.
  cbn [bind]. eexists. reflexivity.
Qed.

Lemma computePowerSpectrum_odd (frame : list R) :
  Nat.odd (length frame) = true ->
  computePowerSpectrum frame = Throw RangeError.
Proof.
  intros H. apply Nat.odd_spec in H. destruct H as [k Hk].
  unfold computePowerSpectrum. rewrite Hk, new_Array_odd. reflexivity.
Qed.

(** ** Mapping a stage that may throw *)

Lemma mapM_ok {A B : Type} (f : A -> result B) (l : list A) :
  Forall (fun x => exists y, f x = Ok y) l ->
  exists ys, mapM f l = Ok ys /\ length ys = length l.
Proof.
  induction 1 as [|x l [y Hy] _ [ys [IH Hlen]]]; simpl.
  - exists []. auto.
  - rewrite Hy, IH. simpl. exists (y :: ys). simpl. auto.
Qed.

Lemma mapM_throw_first {A B : Type} (f : A -> result B) (x : A) (l : list A) (e : exn) :
  f x = Throw e -> mapM f (x :: l) = Throw e.
Proof. intros H. simpl. now rewrite H. Qed.

(** ** Cepstral transform and averaging: lengths *)

Lemma computeDCT_length (melSpectrum : list R) :
  length (computeDCT melSpectrum) = numCoeffs_default.
Proof.
  unfold computeDCT.
  rewrite (for_loop_push
             (fun k => for_loop 0 (length melSpectrum)
                         (fun n sum =>
                            sum + get melSpectrum n
                                  * cos (PI * INR k * (INR n + 0.5)
                                         / INR (length melSpectrum))) 0)).
  rewrite length_app, length_map, length_seq. reflexivity.
Qed.

Lemma averageFeatures_returns (first : list R) (rest : list (list R)) :
  exists avg, averageFeatures (first :: rest) = Ok avg
              /\ length avg = length first.
Proof.
  unfold averageFeatures. eexists. split; [reflexivity|].
  rewrite length_map.
  generalize (first :: rest) as features. intros features.
  assert (G : forall acc, length acc = length first ->
              length (fold_left
                        (fun avg feature =>
                           for_loop 0 (length first)
                             (fun i avg => set avg i (get avg i + get feature i)) avg)
                        features acc) = length first).
  { induction features as [|f fs IH]; intros acc Hacc; simpl.
    - exact Hacc.
    - apply IH.
      apply (for_loop_invariant (fun a => length a = length first)).
      + exact Hacc.
      + intros i a Hi Ha. rewrite set_length_in_range; lia. }
  apply G, repeat_length.
Qed.

(** ** extractMFCC: when it returns and when it throws *)

Lemma emphasized_length (audioData : list R) :
  length (preEmphasis (normalizeAudio audioData)) = length audioData.
Proof. now rewrite preEmphasis_length, normalizeAudio_length. Qed.

(** Fixed-length invariant: a signal of at least one frame, framed with an
    even frame length and a positive step, yields 13 coefficients. *)
Lemma extractMFCC_returns (audioBuffer : AudioBuffer) :
  (1 <= frameStep_of (sampleRate audioBuffer))%nat ->
  Nat.even (frameLength_of (sampleRate audioBuffer)) = true ->
  (frameLength_of (sampleRate audioBuffer) <= length (channelData audioBuffer))%nat ->
  exists mfcc, extractMFCC audioBuffer = Ok mfcc /\ length mfcc = 13%nat.
Proof.
  intros Hstep Heven Hlen. unfold extractMFCC.
  destruct (frameSignal_returns
              (preEmphasis (normalizeAudio (channelData audioBuffer)))
              (frameLength_of (sampleRate audioBuffer))
              (frameStep_of (sampleRate audioBuffer)) Hstep)
    as (frames & E & Hall & Hne).
  rewrite E. cbn [bind].
  rewrite emphasized_length in Hne. specialize (Hne Hlen).
  destruct (mapM_ok (fun frame => computePowerSpectrum (hammingWindow frame)) frames)
    as (ps & Eps & Hps).
  { eapply Forall_impl; [|exact Hall]. intros f Hf. cbv beta in Hf |- *.
    apply computePowerSpectrum_even. now rewrite hammingWindow_length, Hf. }
  rewrite Eps. cbn [bind].
  destruct ps as [|p ps]; [simpl in Hps; lia|].
  cbn [map].
  destruct (averageFeatures_returns
              (computeDCT (applyMelFilterBank p (sampleRate audioBuffer)))
              (map computeDCT
                 (map (fun spectrum => applyMelFilterBank spectrum (sampleRate audioBuffer)) ps)))
    as (avg & Ea & Hl).
  exists avg. split; [exact Ea|].
  rewrite Hl. apply computeDCT_length.
Qed.

(** A signal shorter than one frame: [features[0]] is [undefined]. *)
Lemma extractMFCC_short (audioBuffer : AudioBuffer) :
  (length (channelData audioBuffer) < frameLength_of (sampleRate audioBuffer))%nat ->
  extractMFCC audioBuffer = Throw TypeError.
Proof.
  intros H. unfold extractMFCC.
  rewrite frameSignal_short by (now rewrite emphasized_length).
  reflexivity.
Qed.

(** An odd frame length: [new Array(N / 2)] refuses the length. *)
Lemma extractMFCC_odd (audioBuffer : AudioBuffer) :
  (1 <= frameStep_of (sampleRate audioBuffer))%nat ->
  Nat.odd (frameLength_of (sampleRate audioBuffer)) = true ->
  (frameLength_of (sampleRate audioBuffer) <= length (channelData audioBuffer))%nat ->
  extractMFCC audioBuffer = Throw RangeError.
Proof.
  intros Hstep Hodd Hlen. unfold extractMFCC.
  destruct (frameSignal_returns
              (preEmphasis (normalizeAudio (channelData audioBuffer)))
              (frameLength_of (sampleRate audioBuffer))
              (frameStep_of (sampleRate audioBuffer)) Hstep)
    as (frames & E & Hall & Hne).
  rewrite E. cbn [bind].
  rewrite emphasized_length in Hne. specialize (Hne Hlen).
  destruct frames as [|f frames]; [simpl in Hne; lia|].
  inversion Hall as [|? ? Hf _]; subst.
  rewrite (mapM_throw_first _ f frames RangeError); [reflexivity|].
  apply computePowerSpectrum_odd. now rewrite hammingWindow_length, Hf.
Qed.

(** ** Frame sizes at concrete sample rates *)

Lemma Math_floor_eq (n : nat) (x : R) :
  INR n <= x < INR n + 1 -> Math_floor x = n.
Proof.
  intros H. unfold Math_floor.
  rewrite (Zfloor_eq (Z.of_nat n)).
  - apply Nat2Z.id.
  - now rewrite <- INR_IZR_INZ.
Qed.

Lemma INR_literal (n : nat) : INR n = IZR (Z.of_nat n).
Proof. apply INR_IZR_INZ. Qed.

Lemma frame_sizes_8000 :
  frameLength_of 8000 = 200%nat /\ frameStep_of 8000 = 80%nat.
Proof.
  unfold frameLength_of, frameStep_of.
  split; apply Math_floor_eq; rewrite INR_literal; simpl Z.of_nat; lra.
Qed.

Lemma frame_sizes_22050 :
  frameLength_of 22050 = 551%nat /\ frameStep_of 22050 = 220%nat.
Proof.
  unfold frameLength_of, frameStep_of.
  split; apply Math_floor_eq; rewrite INR_literal; simpl Z.of_nat; lra.
Qed.

Lemma frame_sizes_88200 :
  frameLength_of 88200 = 2205%nat /\ frameStep_of 88200 = 882%nat.
Proof.
  unfold frameLength_of, frameStep_of.
  split; apply Math_floor_eq; rewrite INR_literal; simpl Z.of_nat; lra.
Qed.


(** C6.  A signal shorter than one 25 ms frame is framed into zero frames,
    and feature extraction then fails with an error (the [TypeError] raised
    when [averageFeatures] reads [features[0].length]); it returns no
    feature vector. *)
Theorem extractMFCC_zero_frames_fails (audioBuffer : AudioBuffer) :
  (length (channelData audioBuffer) < frameLength_of (sampleRate audioBuffer))%nat ->
  frameSignal (preEmphasis (normalizeAudio (channelData audioBuffer)))
    (frameLength_of (sampleRate audioBuffer))
    (frameStep_of (sampleRate audioBuffer)) = Ok []
  /\ extractMFCC audioBuffer = Throw TypeError
  /\ forall mfcc, extractMFCC audioBuffer <> Ok mfcc.
Proof.
  intros H. split; [|split].
  - apply frameSignal_short. now rewrite emphasized_length.
  - now apply extractMFCC_short.
  - intros mfcc E. rewrite extractMFCC_short in E by exact H. discriminate.
Qed.

Lemma extractMFCC_zero_frames_fails_witness :
  extractMFCC (mkAudio [0.5; -0.25; 0.125] 8000) = Throw TypeError.
Proof.
  apply (extractMFCC_zero_frames_fails (mkAudio [0.5; -0.25; 0.125] 8000)).
  cbn [channelData sampleRate]. rewrite (proj1 frame_sizes_8000). simpl. lia.
Defined.

(** With an even frame length the same silence gives 13 coefficients. *)
Lemma extractMFCC_silence_even_frame (n : nat) :
  (200 <= n)%nat ->
  exists mfcc, extractMFCC (mkAudio (repeat 0 n) 8000) = Ok mfcc
               /\ length mfcc = 13%nat.
Proof.
  intros Hn. apply extractMFCC_returns; cbn [channelData sampleRate];
    destruct frame_sizes_8000 as [El Es]; rewrite ?El, ?Es, ?repeat_length.
  - lia.
  - reflexivity.
  - exact Hn.
Qed.

(** ** The Mel filter bank *)

Lemma nth_map_seq {A : Type} (f : nat -> A) (n i : nat) (d : A) :
  (i < n)%nat -> nth i (map f (seq 0 n)) d = f i.
Proof.
  intros H. rewrite (nth_indep _ d (f O)) by (now rewrite length_map, length_seq).
  rewrite (map_nth f (seq 0 n) O i), seq_nth by exact H. reflexivity.
Qed.

Lemma ln_10_pos : 0 < ln 10.
Proof. rewrite <- ln_1. apply ln_increasing; lra. Qed.

Lemma hzToMel_0 : hzToMel 0 = 0.
Proof.
  unfold hzToMel, Math_log10.
  replace (1 + 0 / 700) with 1 by field. rewrite ln_1. field.
  apply Rgt_not_eq, ln_10_pos.
Qed.

Lemma melToHz_hzToMel (hz : R) : 0 <= hz -> melToHz (hzToMel hz) = hz.
Proof.
  intros H. unfold melToHz, hzToMel, Math_pow10, Math_log10, Rpower.
  pose proof ln_10_pos as H10.
  replace (2595 * (ln (1 + hz / 700) / ln 10) / 2595 * ln 10)
    with (ln (1 + hz / 700)) by (field; lra).
  rewrite exp_ln by lra. field.
Qed.

Lemma melPoints_spaced (numFilters : nat) (sampleRate : R) :
  melPoints numFilters sampleRate
  = map (fun i => hzToMel 0
                  + (hzToMel (sampleRate / 2) - hzToMel 0) * INR i
                    / (INR numFilters + 1))
        (seq 0 (numFilters + 2)).
Proof.
  unfold melPoints.
  rewrite (for_loop_push
             (fun i => hzToMel 0
                       + (hzToMel (sampleRate / 2) - hzToMel 0) * INR i
                         / (INR numFilters + 1))).
  now rewrite Nat.sub_0_r.
Qed.

Lemma bins_length (numFilters fftSize : nat) (sampleRate : R) :
  length (bins numFilters fftSize sampleRate) = (numFilters + 2)%nat.
Proof.
  unfold bins, hzPoints. rewrite !length_map, melPoints_spaced, length_map.
  apply length_seq.
Qed.

Lemma bin_at (numFilters fftSize i : nat) (sampleRate : R) :
  (i < numFilters + 2)%nat ->
  bin (bins numFilters fftSize sampleRate) i
  = Math_floor ((INR fftSize + 1)
                * melToHz (hzToMel 0
                           + (hzToMel (sampleRate / 2) - hzToMel 0) * INR i
                             / (INR numFilters + 1))
                / sampleRate).
Proof.
  intros H. unfold bin, bins, hzPoints.
  rewrite melPoints_spaced, !map_map.
  now rewrite nth_map_seq.
Qed.

Lemma createMelFilterBank_length (numFilters fftSize : nat) (sampleRate : R) :
  length (createMelFilterBank numFilters fftSize sampleRate) = numFilters.
Proof.
  unfold createMelFilterBank.
  rewrite (for_loop_push
             (fun i => triangle (bins numFilters fftSize sampleRate) fftSize i)).
  rewrite length_app, length_map, length_seq. simpl. lia.
Qed.

Lemma floor_half (k : nat) : Math_floor (INR k / 2) = (k / 2)%nat.
Proof.
  apply Math_floor_eq.
  pose proof (Nat.div_mod_eq k 2) as E.
  pose proof (Nat.mod_upper_bound k 2 ltac:(lia)) as Hm.
  assert (Ek : INR k = 2 * INR (k / 2) + INR (k mod 2)).
  { rewrite E at 1. rewrite plus_INR, mult_INR. simpl. ring. }
  assert (Hr : 0 <= INR (k mod 2) <= 1).
  { split; [apply pos_INR|]. replace 1 with (INR 1) by reflexivity.
    apply le_INR. lia. }
  lra.
Qed.

(** The last boundary bin: the bank ends at bin [(fftSize + 1) / 2]. *)
Lemma top_bin (fftSize : nat) (sampleRate : R) :
  0 < sampleRate ->
  bin (bins 26 fftSize sampleRate) 27 = ((fftSize + 1) / 2)%nat.
Proof.
  intros Hsr. rewrite bin_at by lia.
  replace (hzToMel 0 + (hzToMel (sampleRate / 2) - hzToMel 0) * INR 27 / (INR 26 + 1))
    with (hzToMel (sampleRate / 2)).
  - rewrite melToHz_hzToMel by lra.
    replace ((INR fftSize + 1) * (sampleRate / 2) / sampleRate)
      with (INR (fftSize + 1) / 2).
    + apply floor_half.
    + rewrite plus_INR. simpl. field. lra.
  - rewrite !INR_literal. simpl Z.of_nat. field.
Qed.

Lemma bottom_bin (fftSize : nat) (sampleRate : R) :
  0 < sampleRate ->
  bin (bins 26 fftSize sampleRate) 0 = O.
Proof.
  intros Hsr. rewrite bin_at by lia.
  replace (hzToMel 0 + (hzToMel (sampleRate / 2) - hzToMel 0) * INR 0 / (INR 26 + 1))
    with (hzToMel 0).
  - rewrite melToHz_hzToMel by lra.
    apply Math_floor_eq. simpl. unfold Rdiv. rewrite Rmult_0_r, Rmult_0_l. lra.
  - rewrite !INR_literal. simpl Z.of_nat. field.
Qed.

(** C4.  [createMelFilterBank] builds 26 filters from 28 boundary points
    evenly spaced in Mel between mel(0) and mel(sampleRate / 2), the first of
    them at bin 0; but the last boundary bin is [(fftSize + 1) / 2],
    where [fftSize] is the number of power-spectrum bins it is given, so from
    four bins on the bank ends below the last index [fftSize - 1] of the
    spectrum: it covers the lower half of it. *)
Theorem createMelFilterBank_top_bin (fftSize : nat) (sampleRate : R) :
  0 < sampleRate ->
  length (createMelFilterBank 26 fftSize sampleRate) = 26%nat
  /\ melPoints 26 sampleRate
     = map (fun i => hzToMel 0
                     + (hzToMel (sampleRate / 2) - hzToMel 0) * INR i / (INR 26 + 1))
           (seq 0 28)
  /\ length (bins 26 fftSize sampleRate) = 28%nat
  /\ bin (bins 26 fftSize sampleRate) 0 = 0%nat
  /\ bin (bins 26 fftSize sampleRate) 27 = ((fftSize + 1) / 2)%nat
  /\ ((4 <= fftSize)%nat ->
      (bin (bins 26 fftSize sampleRate) 27 < fftSize - 1)%nat).
Proof.
  intros Hsr.
  split; [apply createMelFilterBank_length|].
  split; [apply melPoints_spaced|].
  split; [apply bins_length|].
  split; [now apply bottom_bin|].
  split; [now apply top_bin|].
  intros H4. rewrite top_bin by exact Hsr.
  pose proof (Nat.div_mod_eq (fftSize + 1) 2) as E.
  pose proof (Nat.mod_upper_bound (fftSize + 1) 2 ltac:(lia)) as Hm.
  lia.
Qed.

Lemma createMelFilterBank_top_bin_witness :
  bin (bins 26 600 48000) 27 = 300%nat
  /\ (bin (bins 26 600 48000) 27 < 600 - 1)%nat.
Proof.
  destruct (createMelFilterBank_top_bin 600 48000) as (_ & _ & _ & _ & Ht & Hlt).
  - lra.
  - split.
    + rewrite Ht. reflexivity.
    + apply Hlt. lia.
Defined.

(** ** The decision of the matcher *)

Lemma fold_Rmax_spec (rest : list R) (x : R) :
  In (fold_left Rmax rest x) (x :: rest)
  /\ forall s, In s (x :: rest) -> s <= fold_left Rmax rest x.
Proof.
  revert x. induction rest as [|y rest IH]; intros x.
  - simpl. split; [auto|]. intros s [<-|[]]. lra.
  - cbn [fold_left]. destruct (IH (Rmax x y)) as [Hin Hub]. split.
    + destruct Hin as [E|Hin].
      * rewrite <- E. unfold Rmax. destruct (Rle_dec x y); simpl; auto.
      * simpl. auto.
    + intros s Hs.
      assert (Hx : x <= fold_left Rmax rest (Rmax x y)).
      { apply Rle_trans with (Rmax x y); [apply Rmax_l|]. apply Hub. now left. }
      assert (Hy : y <= fold_left Rmax rest (Rmax x y)).
      { apply Rle_trans with (Rmax x y); [apply Rmax_r|]. apply Hub. now left. }
      destruct Hs as [<-|[<-|Hs]]; auto.
      apply Hub. now right.
Qed.

Lemma Math_max_spec (xs : list R) :
  xs <> [] ->
  exists m, Math_max xs = Some m /\ In m xs /\ forall s, In s xs -> s <= m.
Proof.
  destruct xs as [|x rest]; [congruence|]. intros _.
  exists (fold_left Rmax rest x). split; [reflexivity|]. apply fold_Rmax_spec.
Qed.

Lemma decide_spec (threshold : R) (similarities : list R) :
  similarities <> [] ->
  exists avg score accepted,
    decide threshold similarities = Ok (avg, score, accepted)
    /\ Math_max similarities = Some score
    /\ In score similarities
    /\ (forall s, In s similarities -> s <= score)
    /\ (accepted = true <-> threshold < score).
Proof.
  intros Hne. destruct (Math_max_spec similarities Hne) as (m & Em & Hin & Hub).
  unfold decide. destruct similarities as [|x rest]; [congruence|].
  cbn [reduce_sum bind]. rewrite Em.
  eexists _, m, _. split; [reflexivity|].
  repeat split; auto.
  - destruct (Rlt_dec threshold m); [auto|discriminate].
  - intros H. destruct (Rlt_dec threshold m); [reflexivity|contradiction].
Qed.

(** ** The embedding generator *)

Lemma extractDeepEmbedding_total (loaded : bool) (model : option TfModel)
  (mfcc : list R) :
  exists embedding, extractDeepEmbedding loaded model mfcc = Ok embedding.
Proof.
  unfold extractDeepEmbedding, tf_chain.
  destruct loaded, model as [m|]; try (now exists mfcc).
  destruct (embed m _) as [row|]; simpl; eauto.
Qed.

(** ** The object: fields that the methods keep *)

Lemma threshold_step (this : VoiceAuthenticator) (a : action) :
  threshold (step this a) = threshold this.
Proof.
  destruct a as [c|c| |]; simpl.
  - unfold recordVoiceSample. destruct (negb _); [reflexivity|].
    destruct c; [reflexivity|]. destruct (fingerprint _ _); reflexivity.
  - unfold authenticateVoice. destruct (_ =? _)%nat; [reflexivity|].
    destruct c; [reflexivity|]. destruct (fingerprint _ _); try reflexivity.
    cbv zeta. destruct (decide _ _) as [[[avg score] [|]]| |]; reflexivity.
  - unfold run_timer. destruct (timers this) as [|[] rest]; reflexivity.
  - reflexivity.
Qed.

Lemma threshold_run (actions : list action) (this : VoiceAuthenticator) :
  threshold (run this actions) = threshold this.
Proof.
  unfold run. revert this. induction actions as [|a actions IH]; intros this; simpl.
  - reflexivity.
  - now rewrite IH, threshold_step.
Qed.

(** The threshold of every object is the 0.75 of its constructor. *)
Lemma threshold_reachable (tf : option TfModel) (actions : list action) :
  threshold (run (constructor tf) actions) = 0.75.
Proof. now rewrite threshold_run. Qed.

(** ** The methods on a capture that can be processed *)

Lemma fingerprint_of_mfcc (this : VoiceAuthenticator) (audioBuffer : AudioBuffer)
  (mfcc : list R) :
  extractMFCC audioBuffer = Ok mfcc ->
  exists embedding, fingerprint this audioBuffer = Ok embedding.
Proof.
  intros E. unfold fingerprint. rewrite E. cbn [bind].
  apply extractDeepEmbedding_total.
Qed.

Lemma recordVoiceSample_success (this : VoiceAuthenticator)
  (audioBuffer : AudioBuffer) (embedding : list R) :
  modelLoaded this = true ->
  fingerprint this audioBuffer = Ok embedding ->
  recordVoiceSample this (Recorded audioBuffer)
  = mkVA (model this) (voiceEmbeddings this ++ [embedding])
         (S (recordingCount this)) (isLocked this) (threshold this)
         (modelLoaded this) (timers this) (dispatched this)
         (alerts this) (console this) (matcherCalls this).
Proof.
  intros Hl E. unfold recordVoiceSample. now rewrite Hl, E.
Qed.

Lemma authenticateVoice_processed (this : VoiceAuthenticator)
  (audioBuffer : AudioBuffer) (embedding : list R) :
  voiceEmbeddings this <> [] ->
  fingerprint this audioBuffer = Ok embedding ->
  let similarities := map (cosineSimilarity embedding) (voiceEmbeddings this) in
  exists avg score accepted,
    Math_max similarities = Some score
    /\ In score similarities
    /\ (forall s, In s similarities -> s <= score)
    /\ (accepted = true <-> threshold this < score)
    /\ authenticateVoice this (Recorded audioBuffer)
       = let logged :=
           console_log (count_matcher this (length (voiceEmbeddings this)))
             [SimilarityScores similarities; AverageSimilarity avg;
              MaxSimilarity score] in
         if accepted then setTimeout logged UnlockSystem else logged.
Proof.
  intros Hne E. cbv zeta.
  set (similarities := map (cosineSimilarity embedding) (voiceEmbeddings this)).
  assert (Hs : similarities <> []).
  { unfold similarities. destruct (voiceEmbeddings this); [congruence|discriminate]. }
  destruct (decide_spec (threshold this) similarities Hs)
    as (avg & score & accepted & Ed & Em & Hin & Hub & Hacc).
  exists avg, score, accepted. repeat split; auto; try apply Hacc.
  unfold authenticateVoice.
  destruct (length (voiceEmbeddings this) =? 0)%nat eqn:El.
  { apply Nat.eqb_eq in El. destruct (voiceEmbeddings this); [congruence|discriminate]. }
  rewrite E. cbv zeta.
  change (threshold (count_matcher this (length (voiceEmbeddings this))))
    with (threshold this).
  change (map (fun storedEmbedding => cosineSimilarity embedding storedEmbedding)
              (voiceEmbeddings this)) with similarities.
  rewrite Ed.
  destruct accepted; reflexivity.
Qed.

(** [authenticateVoice] writes to the page only: the profile, the count,
    the lock flag and the dispatched events are those before the call. *)
Lemma authenticateVoice_frame (this : VoiceAuthenticator) (c : capture) :
  voiceEmbeddings (authenticateVoice this c) = voiceEmbeddings this
  /\ recordingCount (authenticateVoice this c) = recordingCount this
  /\ isLocked (authenticateVoice this c) = isLocked this
  /\ dispatched (authenticateVoice this c) = dispatched this
  /\ model (authenticateVoice this c) = model this
  /\ modelLoaded (authenticateVoice this c) = modelLoaded this.
Proof.
  unfold authenticateVoice. destruct (_ =? _)%nat; [now repeat split|].
  destruct c; [now repeat split|].
  destruct (fingerprint _ _); try now repeat split.
  cbv zeta. destruct (decide _ _) as [[[avg score] [|]]| |]; now repeat split.
Qed.

(** ** The scenario objects *)

Lemma silence_mfcc : exists mfcc, extractMFCC silence = Ok mfcc.
Proof.
  destruct (extractMFCC_silence_even_frame 200) as (mfcc & E & _); [lia|].
  exists mfcc. exact E.
Qed.

Lemma fingerprint_constant (this : VoiceAuthenticator) (row : list R) :
  modelLoaded this = true ->
  model this = Some (constant_model row) ->
  fingerprint this silence = Ok row.
Proof.
  intros Hl Hm. destruct silence_mfcc as [mfcc E].
  unfold fingerprint. rewrite E, Hl, Hm. reflexivity.
Qed.

Lemma enroll_step (embeddings : list (list R)) (n : nat) (locked : bool)
  (pending : list callback) (sent : list string) (out : list console_entry)
  (calls : nat) :
  recordVoiceSample
    (mkVA (Some (constant_model [1])) embeddings n locked 0.75 true pending sent
          [] out calls)
    (Recorded silence)
  = mkVA (Some (constant_model [1])) (embeddings ++ [[1]]) (S n) locked 0.75 true
         pending sent [] out calls.
Proof.
  rewrite (recordVoiceSample_success _ _ [1]);
    [reflexivity|reflexivity|now apply fingerprint_constant].
Qed.

Lemma enrolled_fields :
  run (constructor (Some (constant_model [1]))) enrollment
  = mkVA (Some (constant_model [1])) [[1]; [1]; [1]] 3 true 0.75 true [] [] [] [] 0.
Proof.
  unfold enrollment, run, constructor. cbn [fold_left step].
  rewrite !enroll_step. reflexivity.
Qed.

Lemma cosine_one : 0.75 < cosineSimilarity [1] [1].
Proof.
  unfold cosineSimilarity. rewrite cosine_self. cbn [dot].
  pose proof epsilon_pos as He.
  assert (Hs : epsilon < 1 / 4) by (unfold epsilon; lra).
  apply Rmult_lt_reg_r with (1 * 1 + 0 + epsilon); [lra|].
  unfold Rdiv. rewrite Rmult_assoc, Rinv_l by lra. lra.
Qed.

Lemma cosine_orthogonal : cosineSimilarity [0; 1] [1; 0] = 0.
Proof.
  unfold cosineSimilarity. rewrite cosineSimilarity_eps_spec.
  unfold spec_cosine, common. cbn [length Nat.min firstn dot].
  unfold Rdiv. replace (0 * 1 + (1 * 0 + 0)) with 0 by ring. apply Rmult_0_l.
Qed.

(** C1.  In every state that an object can reach, a verification attempt
    against a non-empty profile logs and uses as its decision score the
    maximum of the cosine similarities between the candidate embedding and
    the enrolled ones, and schedules the unlock (accepts) exactly when that
    maximum is strictly above 0.75.  For the scores 0.40, 0.81, 0.60 the
    decision score is 0.81 and the verdict is accept, although their average
    is below the threshold. *)
Theorem verification_decides_by_max (tf : option TfModel) (actions : list action)
  (audioBuffer : AudioBuffer) (embedding : list R) :
  let this := run (constructor tf) actions in
  voiceEmbeddings this <> [] ->
  fingerprint this audioBuffer = Ok embedding ->
  let similarities := map (cosineSimilarity embedding) (voiceEmbeddings this) in
  (exists avg score accepted,
      Math_max similarities = Some score
      /\ In score similarities
      /\ (forall s, In s similarities -> s <= score)
      /\ (accepted = true <-> 0.75 < score)
      /\ authenticateVoice this (Recorded audioBuffer)
         = let logged :=
             console_log (count_matcher this (length (voiceEmbeddings this)))
               [SimilarityScores similarities; AverageSimilarity avg;
                MaxSimilarity score] in
           if accepted then setTimeout logged UnlockSystem else logged)
  /\ (exists avg, decide 0.75 [0.40; 0.81; 0.60] = Ok (avg, 0.81, true)
                  /\ avg < 0.75).
Proof.
  intros this Hne E similarities. split.
  - destruct (authenticateVoice_processed this audioBuffer embedding Hne E)
      as (avg & score & accepted & Hm & Hin & Hub & Hacc & Heq).
    unfold this in Hacc at 1. rewrite threshold_reachable in Hacc.
    exists avg, score, accepted. repeat split; auto; apply Hacc.
  - unfold decide. cbn [reduce_sum bind Math_max fold_left length].
    rewrite (Rmax_right 0.40 0.81) by lra. rewrite (Rmax_left 0.81 0.60) by lra.
    eexists. split.
    + destruct (Rlt_dec 0.75 0.81) as [_|Hn]; [reflexivity|]. exfalso. lra.
    + rewrite INR_literal. simpl Z.of_nat. lra.
Qed.

Lemma verification_decides_by_max_witness :
  exists score accepted,
    Math_max (map (cosineSimilarity [1])
                (voiceEmbeddings
                   (run (constructor (Some (constant_model [1]))) enrollment)))
    = Some score
    /\ (accepted = true <-> 0.75 < score).
Proof.
  destruct (verification_decides_by_max
              (Some (constant_model [1])) enrollment silence [1])
    as [(avg & score & accepted & Hm & _ & _ & Hacc & _) _].
  - rewrite enrolled_fields. discriminate.
  - apply fingerprint_constant; rewrite enrolled_fields; reflexivity.
  - exists score, accepted. split; [exact Hm | exact Hacc].
Defined.

(** ** The input handed to the model *)

Lemma pad_loop_length (fuel : nat) (features : list R) :
  (128 <= fuel + length features)%nat ->
  (length features <= 128)%nat ->
  length (pad_loop fuel features) = 128%nat.
Proof.
  revert features. induction fuel as [|fuel IH]; intros features H1 H2; simpl.
  - lia.
  - destruct (Nat.ltb_spec (length features) 128).
    + apply IH; rewrite length_app; simpl; lia.
    + lia.
Qed.

Lemma model_input_length (mfcc : list R) :
  length (pad_loop 128 (slice mfcc 0 128)) = 128%nat.
Proof.
  assert (H : (length (slice mfcc 0 128) <= 128)%nat).
  { unfold slice. rewrite length_firstn. lia. }
  apply pad_loop_length; lia.
Qed.

(** C10.  [extractDeepEmbedding] always returns an embedding and never lets
    an exception out: without a loaded model, and when the TensorFlow.js
    chain throws, the embedding is the MFCC vector it was given; otherwise it
    is the row that the chain computed. *)
Theorem extractDeepEmbedding_never_throws (loaded : bool) (model : option TfModel)
  (mfcc : list R) :
  (exists embedding, extractDeepEmbedding loaded model mfcc = Ok embedding)
  /\ (forall e, extractDeepEmbedding loaded model mfcc <> Throw e)
  /\ (loaded = false \/ model = None ->
      extractDeepEmbedding loaded model mfcc = Ok mfcc)
  /\ (forall m, model = Some m ->
        tf_chain m (pad_loop 128 (slice mfcc 0 128)) = Throw ModelError ->
        extractDeepEmbedding loaded model mfcc = Ok mfcc)
  /\ (forall m row, loaded = true -> model = Some m ->
        tf_chain m (pad_loop 128 (slice mfcc 0 128)) = Ok row ->
        extractDeepEmbedding loaded model mfcc = Ok row).
Proof.
  split; [apply extractDeepEmbedding_total|].
  split.
  { intros e. destruct (extractDeepEmbedding_total loaded model mfcc) as [v E].
    rewrite E. discriminate. }
  split.
  { intros [->| ->]; [reflexivity|]. now destruct loaded. }
  split.
  - intros m -> H. unfold extractDeepEmbedding.
    destruct loaded; [|reflexivity]. cbv zeta. now rewrite H.
  - intros m row -> -> H. unfold extractDeepEmbedding. cbv zeta. now rewrite H.
Qed.

(** C7.  With no enrolled embedding [authenticateVoice] only raises its
    alert: [cosineSimilarity] is not called, and the lock flag, the profile,
    the count and the pending timers are untouched, whatever was captured. *)
Theorem authenticateVoice_empty_profile (this : VoiceAuthenticator) (c : capture) :
  voiceEmbeddings this = [] ->
  authenticateVoice this c
  = alert this "No voice profile found. Please record samples first."
  /\ matcherCalls (authenticateVoice this c) = matcherCalls this
  /\ console (authenticateVoice this c) = console this
  /\ isLocked (authenticateVoice this c) = isLocked this
  /\ voiceEmbeddings (authenticateVoice this c) = []
  /\ recordingCount (authenticateVoice this c) = recordingCount this
  /\ timers (authenticateVoice this c) = timers this.
Proof.
  intros H.
  assert (E : authenticateVoice this c
              = alert this "No voice profile found. Please record samples first.").
  { unfold authenticateVoice. now rewrite H. }
  rewrite E. repeat split. exact H.
Qed.

Lemma authenticateVoice_empty_profile_witness :
  matcherCalls (authenticateVoice (constructor None) (Recorded silence)) = 0%nat
  /\ isLocked (authenticateVoice (constructor None) (Recorded silence)) = true.
Proof.
  destruct (authenticateVoice_empty_profile (constructor None) (Recorded silence))
    as (_ & Hm & _ & Hl & _).
  - reflexivity.
  - split; [exact Hm | exact Hl].
Defined.

Lemma extractDeepEmbedding_never_throws_witness :
  extractDeepEmbedding true (Some (mkModel (fun _ => None))) [1; 2; 3] = Ok [1; 2; 3].
Proof.
  destruct (extractDeepEmbedding_never_throws
              true (Some (mkModel (fun _ => None))) [1; 2; 3])
    as (_ & _ & _ & Hthrow & _).
  apply (Hthrow (mkModel (fun _ => None))); reflexivity.
Defined.

(** C9.  A verification attempt whose decision score is not above the
    threshold leaves the profile, the enrollment count and the lock flag as
    they were and schedules no unlock; and no verification attempt, whatever
    its outcome, appends to the profile. *)
Theorem rejected_verification_keeps_state (this : VoiceAuthenticator)
  (audioBuffer : AudioBuffer) (embedding : list R) (score : R) :
  voiceEmbeddings this <> [] ->
  fingerprint this audioBuffer = Ok embedding ->
  Math_max (map (cosineSimilarity embedding) (voiceEmbeddings this)) = Some score ->
  score <= threshold this ->
  let after := authenticateVoice this (Recorded audioBuffer) in
  voiceEmbeddings after = voiceEmbeddings this
  /\ recordingCount after = recordingCount this
  /\ isLocked after = isLocked this
  /\ timers after = timers this
  /\ dispatched after = dispatched this
  /\ (forall that c,
        voiceEmbeddings (authenticateVoice that c) = voiceEmbeddings that).
Proof.
  intros Hne E Hm Hle after.
  destruct (authenticateVoice_frame this (Recorded audioBuffer))
    as (Hv & Hc & Hl & Hd & _).
  repeat split; auto.
  - destruct (authenticateVoice_processed this audioBuffer embedding Hne E)
      as (avg & score' & accepted & Hm' & _ & _ & Hacc & Heq).
    cbv zeta in Hm', Heq. rewrite Hm in Hm'. injection Hm' as <-.
    destruct accepted.
    + exfalso. destruct Hacc as [Hacc _]. specialize (Hacc eq_refl). lra.
    + unfold after. rewrite Heq. reflexivity.
  - intros that c. apply authenticateVoice_frame.
Qed.

Lemma rejected_verification_keeps_state_witness :
  voiceEmbeddings (authenticateVoice stranger (Recorded silence)) = [[1; 0]]
  /\ isLocked (authenticateVoice stranger (Recorded silence)) = true
  /\ timers (authenticateVoice stranger (Recorded silence)) = [].
Proof.
  destruct (rejected_verification_keeps_state stranger silence [0; 1]
              (cosineSimilarity [0; 1] [1; 0]))
    as (Hv & _ & Hl & Ht & _).
  - discriminate.
  - apply fingerprint_constant; reflexivity.
  - reflexivity.
  - rewrite cosine_orthogonal. simpl. lra.
  - repeat split; assumption.
Defined.

(** ** Enrollment *)

Lemma recordVoiceSample_appends (this : VoiceAuthenticator)
  (audioBuffer : AudioBuffer) (mfcc : list R) :
  modelLoaded this = true ->
  extractMFCC audioBuffer = Ok mfcc ->
  exists embedding,
    recordVoiceSample this (Recorded audioBuffer)
    = mkVA (model this) (voiceEmbeddings this ++ [embedding])
           (S (recordingCount this)) (isLocked this) (threshold this)
           (modelLoaded this) (timers this) (dispatched this)
           (alerts this) (console this) (matcherCalls this).
Proof.
  intros Hl E. destruct (fingerprint_of_mfcc this audioBuffer mfcc E) as [e He].
  exists e. now apply recordVoiceSample_success.
Qed.

Lemma enrollment_run (bufs : list AudioBuffer) (this : VoiceAuthenticator) :
  modelLoaded this = true ->
  Forall (fun b => exists mfcc, extractMFCC b = Ok mfcc) bufs ->
  length (voiceEmbeddings (run this (captures bufs)))
  = (length (voiceEmbeddings this) + length bufs)%nat
  /\ recordingCount (run this (captures bufs))
     = (recordingCount this + length bufs)%nat
  /\ isLocked (run this (captures bufs)) = isLocked this
  /\ modelLoaded (run this (captures bufs)) = true.
Proof.
  intros Hl Hall. revert this Hl.
  induction Hall as [|b bufs [mfcc Hb] _ IH]; intros this Hl.
  - simpl. repeat split; auto.
  - unfold captures, run in *. cbn [map fold_left step length].
    destruct (recordVoiceSample_appends this b mfcc Hl Hb) as [e He].
    rewrite He.
    destruct (IH (mkVA (model this) (voiceEmbeddings this ++ [e])
                       (S (recordingCount this)) (isLocked this) (threshold this)
                       (modelLoaded this) (timers this) (dispatched this)
                       (alerts this) (console this) (matcherCalls this)) Hl)
      as (H1 & H2 & H3 & H4).
    rewrite H1, H2, H3, H4. cbn [voiceEmbeddings recordingCount isLocked].
    rewrite length_app. simpl. repeat split; lia.
Qed.

(** C2, as the code has it.  From a locked object with an empty profile,
    every capture that can be processed appends exactly one embedding and
    advances the count by one; the state is Enrolling(k) after k < 3 captures
    and Ready from the third on.  There is no guard at the target: after four
    captures the profile holds four embeddings and the count is four. *)
Theorem enrollment_progress (this : VoiceAuthenticator) (bufs : list AudioBuffer) :
  isLocked this = true ->
  voiceEmbeddings this = [] ->
  recordingCount this = 0%nat ->
  modelLoaded this = true ->
  Forall (fun b => exists mfcc, extractMFCC b = Ok mfcc) bufs ->
  let after := run this (captures bufs) in
  phase_of this = Enrolling 0
  /\ length (voiceEmbeddings after) = length bufs
  /\ recordingCount after = length bufs
  /\ phase_of after
     = (if (length bufs <? 3)%nat then Enrolling (length bufs) else Ready)
  /\ (forall b mfcc, extractMFCC b = Ok mfcc ->
        exists embedding,
          voiceEmbeddings (recordVoiceSample after (Recorded b))
          = voiceEmbeddings after ++ [embedding]
          /\ recordingCount (recordVoiceSample after (Recorded b))
             = S (recordingCount after)).
Proof.
  intros Hl Hv Hc Hm Hall after.
  destruct (enrollment_run bufs this Hm Hall) as (H1 & H2 & H3 & H4).
  fold after in H1, H2, H3, H4.
  rewrite Hv in H1. rewrite Hc in H2. rewrite Hl in H3. simpl in H1, H2.
  split; [|split; [|split; [|split]]]; auto.
  - unfold phase_of. now rewrite Hl, Hc.
  - unfold phase_of, target. now rewrite H3, H2.
  - intros b mfcc Hb.
    destruct (recordVoiceSample_appends after b mfcc H4 Hb) as [e He].
    exists e. rewrite He. split; reflexivity.
Qed.

Lemma enrollment_progress_witness :
  length (voiceEmbeddings
            (run (constructor (Some (constant_model [1])))
                 (captures [silence; silence; silence]))) = 3%nat
  /\ phase_of (run (constructor (Some (constant_model [1])))
                   (captures [silence; silence; silence])) = Ready.
Proof.
  destruct (enrollment_progress (constructor (Some (constant_model [1])))
              [silence; silence; silence])
    as (_ & Hlen & _ & Hph & _); try reflexivity.
  - repeat constructor; apply silence_mfcc.
  - split; [exact Hlen | exact Hph].
Defined.

(** C2, against a no-op: the fourth capture appends and counts like the
    first three. *)
Lemma fourth_capture_appends :
  let ready := run (constructor (Some (constant_model [1]))) enrollment in
  let fourth := recordVoiceSample ready (Recorded silence) in
  length (voiceEmbeddings ready) = 3%nat
  /\ recordingCount ready = 3%nat
  /\ length (voiceEmbeddings fourth) = 4%nat
  /\ recordingCount fourth = 4%nat
  /\ ~ (length (voiceEmbeddings fourth) = 3%nat /\ recordingCount fourth = 3%nat).
Proof.
  cbv zeta. rewrite enrolled_fields, enroll_step.
  cbn [voiceEmbeddings recordingCount app length].
  repeat split; try reflexivity. intros [H _]. discriminate.
Qed.

(** ** Unlocking *)

Lemma timer_step (m : option TfModel) (embeddings : list (list R)) (n : nat)
  (locked : bool) (t : R) (loaded : bool) (rest : list callback)
  (sent al : list string) (out : list console_entry) (calls : nat) :
  run_timer (mkVA m embeddings n locked t loaded (UnlockSystem :: rest) sent al
                  out calls)
  = mkVA m embeddings n false t loaded rest (sent ++ ["voiceUnlocked"%string]) al
         out calls.
Proof. reflexivity. Qed.

Lemma Rmax_same (x : R) : Rmax x x = x.
Proof. apply Rmax_left, Rle_refl. Qed.

Lemma verify_accept_step (n calls : nat) (locked : bool) (pending : list callback)
  (sent : list string) (out : list console_entry) :
  exists entries,
    authenticateVoice
      (mkVA (Some (constant_model [1])) [[1]; [1]; [1]] n locked 0.75 true pending
            sent [] out calls)
      (Recorded silence)
    = mkVA (Some (constant_model [1])) [[1]; [1]; [1]] n locked 0.75 true
           (pending ++ [UnlockSystem]) sent [] (out ++ entries) (calls + 3).
Proof.
  set (this := mkVA (Some (constant_model [1])) [[1]; [1]; [1]] n locked 0.75 true
                    pending sent [] out calls).
  destruct (authenticateVoice_processed this silence [1])
    as (avg & score & accepted & Hm & _ & _ & Hacc & Heq).
  - discriminate.
  - now apply fingerprint_constant.
  - cbv zeta in Hm, Heq. unfold this in Hm.
    cbn [voiceEmbeddings map Math_max fold_left] in Hm.
    rewrite !Rmax_same in Hm. injection Hm as <-.
    destruct accepted.
    + eexists. rewrite Heq. reflexivity.
    + exfalso. destruct Hacc as [_ Hacc].
      specialize (Hacc cosine_one). discriminate.
Qed.

Lemma isLocked_stays_false (this : VoiceAuthenticator) (a : action) :
  isLocked this = false -> a <> ResetVoiceProfile ->
  isLocked (step this a) = false.
Proof.
  intros H Ha. destruct a as [c|c| |]; simpl.
  - unfold recordVoiceSample. destruct (negb _); [exact H|].
    destruct c; [exact H|]. destruct (fingerprint _ _); exact H.
  - destruct (authenticateVoice_frame this c) as (_ & _ & Hl & _). now rewrite Hl.
  - unfold run_timer. destruct (timers this) as [|[] rest]; [exact H|reflexivity].
  - congruence.
Qed.

Lemma notifications_unlockSystem (this : VoiceAuthenticator) :
  notifications (unlockSystem this) = S (notifications this).
Proof.
  unfold notifications, unlockSystem. cbn [dispatched].
  rewrite filter_app, length_app. simpl. lia.
Qed.

(** C3, as the code has it.  An accepted verification attempt schedules one
    call of [unlockSystem], whether the object is locked or already unlocked;
    when that call runs the object is unlocked and one more ['voiceUnlocked']
    event has been dispatched.  An unlocked object stays unlocked under every
    action but a reset, and a reset locks it and empties the profile. *)
Theorem unlock_once_per_accepted_attempt (this : VoiceAuthenticator)
  (audioBuffer : AudioBuffer) (embedding : list R) (score : R) :
  voiceEmbeddings this <> [] ->
  fingerprint this audioBuffer = Ok embedding ->
  Math_max (map (cosineSimilarity embedding) (voiceEmbeddings this)) = Some score ->
  threshold this < score ->
  let after := authenticateVoice this (Recorded audioBuffer) in
  timers after = timers this ++ [UnlockSystem]
  /\ notifications after = notifications this
  /\ (timers this = [] ->
      isLocked (run_timer after) = false
      /\ notifications (run_timer after) = S (notifications this)
      /\ timers (run_timer after) = [])
  /\ (forall that a, isLocked that = false -> a <> ResetVoiceProfile ->
        isLocked (step that a) = false)
  /\ (forall that, isLocked (resetVoiceProfile that) = true
                   /\ voiceEmbeddings (resetVoiceProfile that) = []
                   /\ recordingCount (resetVoiceProfile that) = 0%nat).
Proof.
  intros Hne E Hm Hlt after.
  destruct (authenticateVoice_processed this audioBuffer embedding Hne E)
    as (avg & score' & accepted & Hm' & _ & _ & Hacc & Heq).
  cbv zeta in Hm', Heq. rewrite Hm in Hm'. injection Hm' as <-.
  assert (Ha : accepted = true) by (now apply Hacc). subst accepted.
  assert (Ht : timers after = timers this ++ [UnlockSystem])
    by (unfold after; rewrite Heq; reflexivity).
  assert (Hn : notifications after = notifications this)
    by (unfold after; rewrite Heq; reflexivity).
  split; [exact Ht|]. split; [exact Hn|]. split.
  - intros Hnil. unfold run_timer. rewrite Ht, Hnil. cbn [app].
    repeat split. rewrite notifications_unlockSystem. unfold notifications.
    cbn [dispatched]. unfold after. rewrite Heq. reflexivity.
  - split; [exact isLocked_stays_false|]. intros that. now repeat split.
Qed.

Lemma unlock_once_per_accepted_attempt_witness :
  timers (authenticateVoice
            (run (constructor (Some (constant_model [1]))) enrollment)
            (Recorded silence))
  = [UnlockSystem].
Proof.
  destruct (unlock_once_per_accepted_attempt
              (run (constructor (Some (constant_model [1]))) enrollment)
              silence [1] (cosineSimilarity [1] [1]))
    as (Ht & _).
  - rewrite enrolled_fields. discriminate.
  - apply fingerprint_constant; rewrite enrolled_fields; reflexivity.
  - rewrite enrolled_fields. cbn [voiceEmbeddings map Math_max fold_left].
    now rewrite !Rmax_same.
  - rewrite enrolled_fields. cbn [threshold]. exact cosine_one.
  - rewrite Ht, enrolled_fields. reflexivity.
Defined.

(** C3, against a single notification: a verification accepted after the
    unlock dispatches ['voiceUnlocked'] a second time, with no reset in
    between. *)
Lemma second_accept_notifies_again :
  let unlocked :=
    run (run (constructor (Some (constant_model [1]))) enrollment) verification in
  let again := run unlocked verification in
  isLocked unlocked = false
  /\ notifications unlocked = 1%nat
  /\ isLocked again = false
  /\ notifications again = 2%nat.
Proof.
  cbv zeta. rewrite enrolled_fields. unfold verification, run.
  cbn [fold_left step].
  destruct (verify_accept_step 3 0 true [] [] []) as [es E]. rewrite E.
  cbn [app]. rewrite timer_step. cbn [app].
  destruct (verify_accept_step 3 (0 + 3) false [] ["voiceUnlocked"%string] es)
    as [es' E'].
  rewrite E'. cbn [app]. rewrite timer_step.
  repeat split.
Qed.

(** ** Silence through the stages of the extractor *)

Lemma get_zeros (n i : nat) : get (repeat 0 n) i = 0.
Proof.
  unfold get. revert i. induction n as [|n IH]; intros [|i]; simpl; auto.
Qed.










Lemma iterations_below_nat (k : nat) : iterations_below (INR k) = k.
Proof.
  unfold iterations_below, Zceil. rewrite INR_IZR_INZ, ZfloorNZ.
  rewrite Z.opp_involutive. apply Nat2Z.id.
Qed.


(** A loop invariant that depends on the loop counter. *)
Lemma for_loop_indexed {S : Type} (P : nat -> S -> Prop) (lo hi : nat)
  (body : nat -> S -> S) (s : S) :
  (lo <= hi)%nat -> P lo s ->
  (forall i acc, (lo <= i < hi)%nat -> P i acc -> P (Datatypes.S i) (body i acc)) ->
  P hi (for_loop lo hi body s).
Proof.
  intros Hle Hs Hbody. unfold for_loop.
  assert (G : forall n l acc, (lo <= l)%nat -> (l + n <= hi)%nat -> P l acc ->
              P (l + n)%nat (fold_left (fun acc i => body i acc) (seq l n) acc)).
  { induction n as [|n IH]; intros l acc H1 H2 Hacc; simpl.
    - now rewrite Nat.add_0_r.
    - replace (l + Datatypes.S n)%nat with (Datatypes.S l + n)%nat by lia.
      apply IH; try lia. apply Hbody; [lia | exact Hacc]. }
  replace hi with (lo + (hi - lo))%nat at 1 by lia.
  apply G; try lia. exact Hs.
Qed.


Lemma set_middle (l1 l2 : list R) (x v : R) :
  set (l1 ++ x :: l2) (length l1) v = l1 ++ v :: l2.
Proof. induction l1 as [|h t IH]; simpl; auto. now rewrite IH. Qed.




(** ** Averaging equal feature vectors *)

Lemma fold_left_cons_shift (feature avg : list R) (y h : R) (l : list nat) :
  fold_left (fun a i => set a (S i) (get a (S i) + get (y :: feature) (S i))) l
            (h :: avg)
  = h :: fold_left (fun a i => set a i (get a i + get feature i)) l avg.
Proof.
  revert avg. induction l as [|i l IH]; intros avg; simpl.
  - reflexivity.
  - apply IH.
Qed.

Lemma add_loop (avg feature : list R) :
  length feature = length avg ->
  for_loop 0 (length avg) (fun i a => set a i (get a i + get feature i)) avg
  = map (fun p => fst p + snd p) (combine avg feature).
Proof.
  unfold for_loop. rewrite Nat.sub_0_r. revert feature.
  induction avg as [|x avg IH]; intros [|y feature] H; simpl in H; try lia.
  - reflexivity.
  - cbn [length seq fold_left combine map fst snd].
    rewrite (fold_left_seq_shift
               (fun i a => set a i (get a i + get (y :: feature) i))).
    change (set (x :: avg) 0 (get (x :: avg) 0 + get (y :: feature) 0))
      with ((x + y) :: avg).
    rewrite fold_left_cons_shift, IH by lia. reflexivity.
Qed.






(** ** Normalisation *)



(** C8, at sample rates of 22050 Hz and 88200 Hz.  One frame is 551 (2205)
    samples long, an odd number, and [new Array(N / 2)] raises a
    [RangeError]: for one frame of silence [extractMFCC] returns no feature
    vector.  (With an even frame length it returns the vector of
    [extractMFCC_silence].) *)
Theorem extractMFCC_silence_odd_frame :
  frameLength_of 22050 = 551%nat
  /\ extractMFCC (mkAudio (repeat 0 551) 22050) = Throw RangeError
  /\ frameLength_of 88200 = 2205%nat
  /\ extractMFCC (mkAudio (repeat 0 2205) 88200) = Throw RangeError.
Proof.
  destruct frame_sizes_22050 as [El Es]. destruct frame_sizes_88200 as [El' Es'].
  split; [exact El|]. split; [|split; [exact El'|]].
  - apply extractMFCC_odd; cbn [channelData sampleRate];
      rewrite ?El, ?Es, ?repeat_length; [lia|reflexivity|lia].
  - apply extractMFCC_odd; cbn [channelData sampleRate];
      rewrite ?El', ?Es', ?repeat_length; [lia|reflexivity|lia].
Qed.

(** * Further properties of the extractor *)


Lemma get_typed_set_same (l : list R) (i : nat) (v : R) :
  (i < length l)%nat -> get (typed_set l i v) i = v.
Proof.
  unfold get. revert i. induction l as [|h t IH]; intros [|i] H; simpl in *; try lia.
  - reflexivity.
  - apply IH. lia.
Qed.

Lemma get_typed_set_other (l : list R) (i j : nat) (v : R) :
  i <> j -> get (typed_set l i v) j = get l j.
Proof.
  unfold get. revert i j. induction l as [|h t IH]; intros [|i] [|j] H; simpl;
    try reflexivity; try lia.
  apply IH. lia.
Qed.

(** X2.  Pre-emphasis is the first-order difference filter: the first
    sample is kept, every later sample loses 0.97 times its predecessor, and
    the length is that of the input. *)
Theorem preEmphasis_filter (signal : list R) :
  length (preEmphasis signal) = length signal
  /\ forall i, (i < length signal)%nat ->
       get (preEmphasis signal) i
       = match i with
         | O => get signal 0
         | S _ => get signal i - 0.97 * get signal (i - 1)
         end.
Proof.
  split; [apply preEmphasis_length|].
  destruct signal as [|x0 rest] eqn:Es; [simpl; lia|]. rewrite <- Es.
  set (F := fun i => match i with
                     | O => get signal 0
                     | S _ => get signal i - alpha * get signal (i - 1)
                     end).
  pose (P := fun (k : nat) (e : list R) =>
               length e = length signal
               /\ forall i, (i < k)%nat -> (i < length signal)%nat -> get e i = F i).
  assert (H : P (length signal) (preEmphasis signal)).
  { unfold preEmphasis. apply (for_loop_indexed P).
    - rewrite Es. simpl. lia.
    - split.
      + rewrite typed_set_length. apply repeat_length.
      + intros i Hi1 Hi. assert (i = O) by lia. subst i.
        rewrite get_typed_set_same by (rewrite repeat_length; lia). reflexivity.
    - intros i e Hi [Hlen He]. split.
      + now rewrite typed_set_length.
      + intros j Hj Hjl. destruct (Nat.eq_dec j i) as [->|Hne].
        * rewrite get_typed_set_same by lia. unfold F.
          destruct i; [lia|reflexivity].
        * rewrite get_typed_set_other by lia. apply He; lia. }
  destruct H as [_ H]. intros i Hi. rewrite (H i Hi Hi). unfold F, alpha.
  reflexivity.
Qed.

(** The frames that the loop pushes from offset [i] on. *)
Lemma frame_loop_frames (signal : list R) (frameLength frameStep : nat) :
  (1 <= frameStep)%nat ->
  forall fuel i frames,
    (1 <= fuel)%nat -> (length signal + 2 <= fuel + i)%nat ->
    frame_loop fuel signal frameLength frameStep i frames
    = Ok (frames
          ++ map (fun j => slice signal (i + j * frameStep)
                             (i + j * frameStep + frameLength))
                 (seq 0 (if (i + frameLength <=? length signal)%nat
                         then (length signal - frameLength - i) / frameStep + 1
                         else 0))).
Proof.
  intros Hstep. induction fuel as [|fuel IH]; intros i frames Hf Hfi; [lia|].
  cbn [frame_loop].
  destruct (Nat.leb_spec (i + frameLength) (length signal)) as [Hle|Hgt].
  - rewrite IH by lia. rewrite <- app_assoc. f_equal. f_equal.
    set (q := ((length signal - frameLength - i) / frameStep)%nat).
    assert (Hc : (if (i + frameStep + frameLength <=? length signal)%nat
                  then (length signal - frameLength - (i + frameStep)) / frameStep + 1
                  else 0)%nat = q).
    { unfold q.
      destruct (Nat.leb_spec (i + frameStep + frameLength) (length signal)).
      - replace (length signal - frameLength - i)%nat
          with ((length signal - frameLength - (i + frameStep)) + 1 * frameStep)%nat
          by lia.
        rewrite Nat.div_add by lia. reflexivity.
      - rewrite Nat.div_small by lia. reflexivity. }
    rewrite Hc, (Nat.add_1_r q). cbn [seq map app].
    rewrite <- seq_shift, map_map.
    f_equal; [f_equal; lia|]. apply map_ext. intros j. f_equal; lia.
  - now rewrite app_nil_r.
Qed.

(** X3.  With a positive step, framing returns the windows that start at
    0, step, 2 step, ... and fit entirely in the signal: there are
    [(length - frameLength) / frameStep + 1] of them when one fits and none
    otherwise, and the trailing samples are dropped. *)
Theorem frameSignal_windows (signal : list R) (frameLength frameStep : nat) :
  (1 <= frameStep)%nat ->
  frameSignal signal frameLength frameStep
  = Ok (map (fun j => slice signal (j * frameStep) (j * frameStep + frameLength))
            (seq 0 (if (frameLength <=? length signal)%nat
                    then (length signal - frameLength) / frameStep + 1
                    else 0))).
Proof.
  intros Hstep. unfold frameSignal.
  rewrite (frame_loop_frames signal frameLength frameStep Hstep) by lia.
  cbn [app Nat.add]. rewrite Nat.sub_0_r. reflexivity.
Qed.

Lemma frameSignal_windows_witness :
  frameSignal [1; 2; 3; 4; 5; 6; 7; 8] 4 3 = Ok [[1; 2; 3; 4]; [4; 5; 6; 7]].
Proof.
  rewrite (frameSignal_windows [1; 2; 3; 4; 5; 6; 7; 8] 4 3); [reflexivity|lia].
Defined.

Lemma frame_loop_stuck (signal : list R) (frameLength : nat) :
  (frameLength <= length signal)%nat ->
  forall fuel frames,
    frame_loop fuel signal frameLength 0 0 frames = Diverge.
Proof.
  intros Hle. induction fuel as [|fuel IH]; intros frames; cbn [frame_loop].
  - reflexivity.
  - destruct (Nat.leb_spec (0 + frameLength) (length signal)); [|simpl in *; lia].
    apply IH.
Qed.

(** X4.  With a step of 0 (a sample rate below 100 Hz) and a signal that
    holds one frame, the loop of [frameSignal] never ends, and neither does
    [extractMFCC]. *)
Theorem frameSignal_zero_step_hangs (audioBuffer : AudioBuffer) :
  frameStep_of (sampleRate audioBuffer) = 0%nat ->
  (frameLength_of (sampleRate audioBuffer) <= length (channelData audioBuffer))%nat ->
  frameSignal (preEmphasis (normalizeAudio (channelData audioBuffer)))
    (frameLength_of (sampleRate audioBuffer)) 0 = Diverge
  /\ extractMFCC audioBuffer = Diverge.
Proof.
  intros Hs Hl.
  assert (E : frameSignal (preEmphasis (normalizeAudio (channelData audioBuffer)))
                (frameLength_of (sampleRate audioBuffer)) 0 = Diverge).
  { unfold frameSignal. apply frame_loop_stuck. now rewrite emphasized_length. }
  split; [exact E|]. unfold extractMFCC. rewrite Hs, E. reflexivity.
Qed.

Lemma frameSignal_zero_step_hangs_witness :
  extractMFCC (mkAudio [0.5; 0.25] 80) = Diverge.
Proof.
  assert (Hs : frameStep_of 80 = 0%nat).
  { unfold frameStep_of. apply Math_floor_eq. rewrite INR_literal. simpl. lra. }
  assert (Hl : frameLength_of 80 = 2%nat).
  { unfold frameLength_of. apply Math_floor_eq. rewrite INR_literal.
    simpl Z.of_nat. lra. }
  apply (frameSignal_zero_step_hangs (mkAudio [0.5; 0.25] 80)).
  - exact Hs.
  - cbn [channelData sampleRate]. rewrite Hl. simpl. lia.
Defined.

Lemma nth_mapi_from {A : Type} (f : R -> nat -> A) (d : A) (l : list R) (s n : nat) :
  (n < length l)%nat ->
  nth n (map (fun p => f (snd p) (fst p)) (combine (seq s (length l)) l)) d
  = f (nth n l 0) (s + n)%nat.
Proof.
  revert s n. induction l as [|x l IH]; intros s [|n] H; simpl in *; try lia.
  - now rewrite Nat.add_0_r.
  - rewrite IH by lia. f_equal. lia.
Qed.

Lemma get_mapi (f : R -> nat -> R) (l : list R) (n : nat) :
  (n < length l)%nat -> get (mapi f l) n = f (get l n) n.
Proof.
  intros H. unfold get, mapi. now rewrite nth_mapi_from.
Qed.

Lemma hamming_weight_range (x : R) : 0.08 <= 0.54 - 0.46 * cos x <= 1.
Proof. pose proof (COS_bound x) as [Hl Hu]. lra. Qed.

(** X5.  A Hamming window of two samples or more keeps the length, scales
    sample [n] by [0.54 - 0.46 cos (2 pi n / (N - 1))], never amplifies a
    sample, and scales the first and the last sample by 0.08. *)
Theorem hammingWindow_tapers (frame : list R) :
  (2 <= length frame)%nat ->
  length (hammingWindow frame) = length frame
  /\ (forall n, (n < length frame)%nat ->
        get (hammingWindow frame) n
        = get frame n
          * (0.54 - 0.46 * cos (2 * PI * INR n / (INR (length frame) - 1)))
        /\ Rabs (get (hammingWindow frame) n) <= Rabs (get frame n))
  /\ get (hammingWindow frame) 0 = get frame 0 * 0.08
  /\ get (hammingWindow frame) (length frame - 1)
     = get frame (length frame - 1) * 0.08.
Proof.
  intros HN.
  assert (Hget : forall n, (n < length frame)%nat ->
            get (hammingWindow frame) n
            = get frame n
              * (0.54 - 0.46 * cos (2 * PI * INR n / (INR (length frame) - 1)))).
  { intros n Hn. unfold hammingWindow. now rewrite get_mapi. }
  split; [apply hammingWindow_length|]. split; [|split].
  - intros n Hn. split; [now apply Hget|]. rewrite (Hget n Hn), Rabs_mult.
    pose proof (hamming_weight_range (2 * PI * INR n / (INR (length frame) - 1)))
      as [Hl Hu].
    rewrite (Rabs_pos_eq (0.54 - _)) by lra.
    pose proof (Rabs_pos (get frame n)). nra.
  - rewrite Hget by lia. simpl INR. f_equal.
    replace (2 * PI * 0 / (INR (length frame) - 1)) with 0
      by (unfold Rdiv; ring).
    rewrite cos_0. lra.
  - rewrite Hget by lia. f_equal.
    assert (E : INR (length frame - 1) = INR (length frame) - 1).
    { rewrite minus_INR by lia. reflexivity. }
    assert (Hpos : 0 < INR (length frame) - 1).
    { rewrite <- E. apply lt_0_INR. lia. }
    rewrite E.
    replace (2 * PI * (INR (length frame) - 1) / (INR (length frame) - 1))
      with (2 * PI) by (field; lra).
    rewrite cos_2PI. lra.
Qed.

Lemma hammingWindow_tapers_witness :
  get (hammingWindow [1; 2; 3]) 0 = 1 * 0.08
  /\ get (hammingWindow [1; 2; 3]) 2 = 3 * 0.08.
Proof.
  destruct (hammingWindow_tapers [1; 2; 3]) as (_ & _ & H0 & Hlast).
  - simpl. lia.
  - split; [exact H0 | exact Hlast].
Defined.

(** A loop that writes slot [k] in round [k] fills the array in order. *)
Lemma for_loop_fill (f : nat -> R) (K : nat) :
  for_loop 0 K (fun k spectrum => set spectrum k (f k)) (repeat 0 K)
  = map f (seq 0 K).
Proof.
  pose (P := fun (i : nat) (s : list R) => s = map f (seq 0 i) ++ repeat 0 (K - i)).
  assert (H : P K (for_loop 0 K (fun k spectrum => set spectrum k (f k)) (repeat 0 K))).
  { apply (for_loop_indexed P).
    - lia.
    - unfold P. now rewrite Nat.sub_0_r.
    - intros i s Hi ->. unfold P.
      replace (K - i)%nat with (S (K - S i)) by lia. cbn [repeat].
      pose proof (set_middle (map f (seq 0 i)) (repeat 0 (K - S i)) 0 (f i)) as E.
      rewrite length_map, length_seq in E. rewrite E.
      rewrite seq_S, map_app, <- app_assoc. reflexivity. }
  unfold P in H. rewrite H, Nat.sub_diag. apply app_nil_r.
Qed.

(** X6.  The power spectrum of a frame of even length N has N/2 entries,
    none of them negative; a frame of odd length makes the allocation of the
    spectrum throw. *)
Theorem computePowerSpectrum_shape (frame : list R) :
  (Nat.even (length frame) = true ->
   exists spectrum,
     computePowerSpectrum frame = Ok spectrum
     /\ length spectrum = (length frame / 2)%nat
     /\ Forall (fun p => 0 <= p) spectrum)
  /\ (Nat.odd (length frame) = true ->
      computePowerSpectrum frame = Throw RangeError).
Proof.
  split; [|apply computePowerSpectrum_odd].
  intros H. apply Nat.even_spec in H. destruct H as [k Hk].
  unfold computePowerSpectrum. rewrite Hk, new_Array_even. cbn [bind].
  replace (INR (2 * k) / 2) with (INR k) by (rewrite mult_INR; simpl; field).
  rewrite iterations_below_nat.
  rewrite (for_loop_fill
             (fun k0 =>
                (fst (for_loop 0 (2 * k) (dft_body frame (INR (2 * k)) k0) (0, 0))
                 * fst (for_loop 0 (2 * k) (dft_body frame (INR (2 * k)) k0) (0, 0))
                 + snd (for_loop 0 (2 * k) (dft_body frame (INR (2 * k)) k0) (0, 0))
                   * snd (for_loop 0 (2 * k) (dft_body frame (INR (2 * k)) k0) (0, 0)))
                / INR (2 * k))).
  eexists. split; [reflexivity|]. split.
  - rewrite length_map, length_seq.
    rewrite Nat.mul_comm, Nat.div_mul by lia. reflexivity.
  - apply Forall_forall. intros p Hp. apply in_map_iff in Hp.
    destruct Hp as (k0 & <- & _).
    assert (Hn : 0 <= / INR (2 * k)).
    { destruct (Nat.eq_dec k 0) as [->|Hk0].
      - simpl. rewrite Rinv_0. lra.
      - apply Rlt_le, Rinv_0_lt_compat, lt_0_INR. lia. }
    unfold Rdiv. apply Rmult_le_pos; [nra | exact Hn].
Qed.

Lemma computePowerSpectrum_shape_witness :
  (exists spectrum, computePowerSpectrum [1; -1; 1; -1] = Ok spectrum
                    /\ length spectrum = 2%nat)
  /\ computePowerSpectrum [1; 2; 3] = Throw RangeError.
Proof.
  split.
  - destruct (computePowerSpectrum_shape [1; -1; 1; -1]) as [He _].
    destruct (He eq_refl) as (spectrum & E & Hl & _).
    exists spectrum. split; [exact E | exact Hl].
  - destruct (computePowerSpectrum_shape [1; 2; 3]) as [_ Ho].
    apply Ho. reflexivity.
Defined.

Lemma hzToMel_increasing (hz hz' : R) :
  -700 < hz -> hz < hz' -> hzToMel hz < hzToMel hz'.
Proof.
  intros H Hlt. pose proof ln_10_pos as H10. unfold hzToMel, Math_log10.
  assert (Hln : ln (1 + hz / 700) < ln (1 + hz' / 700))
    by (apply ln_increasing; lra).
  assert (Hi : 0 < / ln 10) by (apply Rinv_0_lt_compat; exact H10).
  unfold Rdiv at 1 3. nra.
Qed.

(** X7.  The Mel and Hz conversions are inverse to each other, 0 Hz is
    0 Mel, and the Mel scale is increasing. *)
Theorem mel_hz_round_trip (hz mel : R) :
  (-700 < hz -> melToHz (hzToMel hz) = hz)
  /\ hzToMel (melToHz mel) = mel
  /\ hzToMel 0 = 0
  /\ (forall hz', -700 < hz -> hz < hz' -> hzToMel hz < hzToMel hz').
Proof.
  pose proof ln_10_pos as H10.
  split; [|split; [|split]].
  - intros H. unfold melToHz, hzToMel, Math_pow10, Math_log10, Rpower.
    replace (2595 * (ln (1 + hz / 700) / ln 10) / 2595 * ln 10)
      with (ln (1 + hz / 700)) by (field; lra).
    rewrite exp_ln by lra. field.
  - unfold melToHz, hzToMel, Math_pow10, Math_log10, Rpower.
    replace (1 + 700 * (exp (mel / 2595 * ln 10) - 1) / 700)
      with (exp (mel / 2595 * ln 10)) by field.
    rewrite ln_exp. field. lra.
  - apply hzToMel_0.
  - intros hz' H Hlt. now apply hzToMel_increasing.
Qed.

Lemma mel_hz_round_trip_witness : melToHz (hzToMel 1000) = 1000.
Proof.
  destruct (mel_hz_round_trip 1000 0) as [H _]. apply H. lra.
Defined.

(** ** The weights of the Mel filters *)

Lemma get_set_same (l : list R) (i : nat) (v : R) : get (set l i v) i = v.
Proof.
  unfold get. revert l. induction i as [|i IH]; intros [|h t]; simpl; auto.
Qed.

Lemma get_set_other (l : list R) (i j : nat) (v : R) :
  i <> j -> get (set l i v) j = get l j.
Proof.
  unfold get. revert l j. induction i as [|i IH]; intros [|h t] [|j] H; simpl;
    try reflexivity; try lia.
  - now destruct j.
  - rewrite IH by lia. now destruct j.
  - apply IH. lia.
Qed.

Lemma set_Forall (P : R -> Prop) (l : list R) (i : nat) (v : R) :
  (i < length l)%nat -> P v -> Forall P l -> Forall P (set l i v).
Proof.
  revert i. induction l as [|h t IH]; intros [|i] Hi Hv Hall; simpl in *; try lia.
  - inversion Hall; subst. now constructor.
  - inversion Hall; subst. constructor; [assumption|]. apply IH; auto. lia.
Qed.

Lemma unit_ratio (a b : R) : 0 <= a <= b -> 0 < b -> 0 <= a / b <= 1.
Proof.
  intros [Ha Hab] Hb. unfold Rdiv.
  assert (Hi : 0 < / b) by (now apply Rinv_0_lt_compat).
  assert (E : b * / b = 1) by (apply Rinv_r; lra).
  split; nra.
Qed.

Lemma Math_floor_mono (x y : R) : x <= y -> (Math_floor x <= Math_floor y)%nat.
Proof.
  intros H. unfold Math_floor. pose proof (Zfloor_le x y H). lia.
Qed.

Lemma melToHz_mono (m1 m2 : R) : m1 <= m2 -> melToHz m1 <= melToHz m2.
Proof.
  intros H. unfold melToHz, Math_pow10, Rpower.
  pose proof ln_10_pos as H10.
  assert (Hx : m1 / 2595 * ln 10 <= m2 / 2595 * ln 10) by nra.
  destruct Hx as [Hlt|Heq].
  - pose proof (exp_increasing _ _ Hlt). lra.
  - rewrite Heq. lra.
Qed.

Lemma hzToMel_nonneg (hz : R) : 0 <= hz -> 0 <= hzToMel hz.
Proof.
  intros [H|<-]; [|rewrite hzToMel_0; lra].
  rewrite <- hzToMel_0 at 1. apply Rlt_le, hzToMel_increasing; lra.
Qed.

Lemma bin_mono (fftSize i j : nat) (sampleRate : R) :
  0 < sampleRate -> (i <= j < 28)%nat ->
  (bin (bins 26 fftSize sampleRate) i <= bin (bins 26 fftSize sampleRate) j)%nat.
Proof.
  intros Hsr [Hij Hj]. rewrite !bin_at by lia.
  apply Math_floor_mono.
  pose proof (hzToMel_nonneg (sampleRate / 2) ltac:(lra)) as Hh.
  rewrite hzToMel_0, Rminus_0_r, !Rplus_0_l.
  assert (Hm : melToHz (hzToMel (sampleRate / 2) * INR i / (INR 26 + 1))
               <= melToHz (hzToMel (sampleRate / 2) * INR j / (INR 26 + 1))).
  { apply melToHz_mono. apply le_INR in Hij.
    rewrite (INR_literal 26). simpl Z.of_nat.
    unfold Rdiv. apply Rmult_le_compat_r; [lra|]. nra. }
  pose proof (pos_INR fftSize).
  assert (Hi : 0 < / sampleRate) by (now apply Rinv_0_lt_compat).
  unfold Rdiv. apply Rmult_le_compat_r; [lra|]. nra.
Qed.

Lemma triangle_weights (bs : list nat) (fftSize i : nat) :
  (bin bs (i - 1) <= bin bs i)%nat -> (bin bs i <= bin bs (i + 1))%nat ->
  (bin bs (i + 1) <= fftSize)%nat ->
  length (triangle bs fftSize i) = fftSize
  /\ Forall (fun w => 0 <= w <= 1) (triangle bs fftSize i)
  /\ forall j, (bin bs (i + 1) <= j)%nat -> get (triangle bs fftSize i) j = 0.
Proof.
  intros H01 H12 H2.
  pose (P := fun filter : list R =>
               length filter = fftSize
               /\ Forall (fun w => 0 <= w <= 1) filter
               /\ forall j, (bin bs (i + 1) <= j)%nat -> get filter j = 0).
  change (P (triangle bs fftSize i)). unfold triangle.
  apply (for_loop_invariant P); [apply (for_loop_invariant P)|].
  - repeat split.
    + apply repeat_length.
    + apply Forall_forall. intros w Hw. apply repeat_spec in Hw. lra.
    + intros j _. apply get_zeros.
  - intros j filter Hj (Hl & Hall & Hz). repeat split.
    + rewrite set_length_in_range; lia.
    + apply set_Forall; [lia| |exact Hall].
      apply unit_ratio.
      * destruct Hj as [Hj1 Hj2]. apply le_INR in Hj1. apply lt_INR in Hj2. lra.
      * destruct Hj as [Hj1 Hj2].
        assert (Hlt : (bin bs (i - 1) < bin bs i)%nat) by lia.
        apply lt_INR in Hlt. lra.
    + intros j' Hj'. rewrite get_set_other by lia. now apply Hz.
  - intros j filter Hj (Hl & Hall & Hz). repeat split.
    + rewrite set_length_in_range; lia.
    + apply set_Forall; [lia| |exact Hall].
      apply unit_ratio.
      * destruct Hj as [Hj1 Hj2]. apply le_INR in Hj1. apply lt_INR in Hj2. lra.
      * destruct Hj as [Hj1 Hj2].
        assert (Hlt : (bin bs i < bin bs (i + 1))%nat) by lia.
        apply lt_INR in Hlt. lra.
    + intros j' Hj'. rewrite get_set_other by lia. now apply Hz.
Qed.

Lemma mel_bank_weights (fftSize : nat) (sampleRate : R) :
  0 < sampleRate ->
  (forall i j, (i <= j < 28)%nat ->
     (bin (bins 26 fftSize sampleRate) i <= bin (bins 26 fftSize sampleRate) j)%nat)
  /\ Forall (fun filter =>
               length filter = fftSize
               /\ Forall (fun w => 0 <= w <= 1) filter
               /\ forall j, ((fftSize + 1) / 2 <= j)%nat -> get filter j = 0)
            (createMelFilterBank 26 fftSize sampleRate).
Proof.
  intros Hsr. split; [intros i j; now apply bin_mono|].
  unfold createMelFilterBank.
  rewrite (for_loop_push (fun i => triangle (bins 26 fftSize sampleRate) fftSize i)).
  cbn [app]. apply Forall_forall. intros filter Hf.
  apply in_map_iff in Hf. destruct Hf as (i & <- & Hi). apply in_seq in Hi.
  pose proof (top_bin fftSize sampleRate Hsr) as Ht.
  pose proof (bin_mono fftSize (i + 1) 27 sampleRate Hsr ltac:(lia)) as Hle.
  rewrite Ht in Hle.
  assert (Htop : ((fftSize + 1) / 2 <= fftSize)%nat).
  { pose proof (Nat.div_mod_eq (fftSize + 1) 2).
    pose proof (Nat.mod_upper_bound (fftSize + 1) 2 ltac:(lia)).
    destruct fftSize; [reflexivity|lia]. }
  destruct (triangle_weights (bins 26 fftSize sampleRate) fftSize i)
    as (Hl & Hall & Hz).
  - apply bin_mono; [exact Hsr|lia].
  - apply bin_mono; [exact Hsr|lia].
  - lia.
  - repeat split; auto. intros j Hj. apply Hz. lia.
Qed.

(** X8.  For a positive sample rate the 28 boundary bins are in increasing
    order, and each of the 26 filters has exactly [fftSize] weights, all of
    them in [0, 1] and all of them 0 from bin [(fftSize + 1) / 2] on: the
    upper half of the power spectrum contributes to no Mel energy. *)
Theorem createMelFilterBank_weights (fftSize : nat) (sampleRate : R) :
  0 < sampleRate ->
  (forall i j, (i <= j < 28)%nat ->
     (bin (bins 26 fftSize sampleRate) i <= bin (bins 26 fftSize sampleRate) j)%nat)
  /\ Forall (fun filter =>
               length filter = fftSize
               /\ Forall (fun w => 0 <= w <= 1) filter
               /\ forall j, ((fftSize + 1) / 2 <= j)%nat -> get filter j = 0)
            (createMelFilterBank 26 fftSize sampleRate).
Proof. exact (mel_bank_weights fftSize sampleRate). Qed.

Lemma createMelFilterBank_weights_witness :
  Forall (fun filter => length filter = 600%nat
                        /\ forall j, (300 <= j)%nat -> get filter j = 0)
         (createMelFilterBank 26 600 48000).
Proof.
  destruct (createMelFilterBank_weights 600 48000) as [_ H]; [lra|].
  eapply Forall_impl; [|exact H]. cbv beta.
  intros filter (Hl & _ & Hz). split; [exact Hl|].
  intros j Hj. apply Hz.
  change ((600 + 1) / 2)%nat with 300%nat. exact Hj.
Defined.

(** ** The floor of the Mel energies *)

Lemma get_nonneg (l : list R) (j : nat) :
  Forall (fun x => 0 <= x) l -> 0 <= get l j.
Proof.
  intros H. unfold get. destruct (Nat.lt_ge_cases j (length l)) as [Hlt|Hge].
  - rewrite Forall_forall in H. apply H. now apply nth_In.
  - rewrite nth_overflow by exact Hge. lra.
Qed.

Lemma Forall_by_get (Q : R -> Prop) (l : list R) :
  (forall t, (t < length l)%nat -> Q (get l t)) -> Forall Q l.
Proof.
  intros H. apply Forall_forall. intros x Hx.
  destruct (In_nth l x 0 Hx) as (t & Ht & <-). now apply H.
Qed.

Lemma ln_floor (x : R) : 0 <= x -> ln epsilon <= ln (x + epsilon).
Proof.
  pose proof epsilon_pos as He. intros [Hx|<-].
  - apply Rlt_le, ln_increasing; lra.
  - rewrite Rplus_0_l. lra.
Qed.

(** X9.  On a power spectrum without negative entries and at a positive
    sample rate, the Mel filter bank returns 26 log-energies, none of them
    below [ln 1e-8]: the argument of each logarithm is at least the guard. *)
Theorem applyMelFilterBank_floor (powerSpectrum : list R) (sampleRate : R) :
  0 < sampleRate ->
  Forall (fun p => 0 <= p) powerSpectrum ->
  length (applyMelFilterBank powerSpectrum sampleRate) = 26%nat
  /\ Forall (fun e => ln epsilon <= e) (applyMelFilterBank powerSpectrum sampleRate).
Proof.
  intros Hsr Hp.
  destruct (mel_bank_weights (length powerSpectrum) sampleRate Hsr)
    as [_ Hbank].
  unfold applyMelFilterBank, numFilters_default.
  set (melFilters := createMelFilterBank 26 (length powerSpectrum) sampleRate) in *.
  assert (Hw : forall i j, 0 <= get (nth i melFilters []) j).
  { intros i j. destruct (Nat.lt_ge_cases i (length melFilters)) as [Hlt|Hge].
    - rewrite Forall_forall in Hbank.
      destruct (Hbank (nth i melFilters []) (nth_In _ _ Hlt)) as (_ & Hall & _).
      apply get_nonneg. eapply Forall_impl; [|exact Hall]. cbv beta. intros; lra.
    - rewrite nth_overflow by exact Hge. unfold get. destruct j; simpl; lra. }
  pose (P := fun (i : nat) (ms : list R) =>
               length ms = 26%nat
               /\ (forall t, (t < i)%nat -> ln epsilon <= get ms t)
               /\ (forall t, (i <= t)%nat -> get ms t = 0)).
  set (body := fun (i : nat) (melSpectrum : list R) =>
                 let melSpectrum :=
                   for_loop 0 (length powerSpectrum)
                     (fun j melSpectrum =>
                        set melSpectrum i
                          (get melSpectrum i
                           + get powerSpectrum j * get (nth i melFilters []) j))
                     melSpectrum in
                 set melSpectrum i (ln (get melSpectrum i + epsilon))).
  assert (H : P 26%nat (for_loop 0 26 body (repeat 0 26))).
  { apply (for_loop_indexed P).
    - lia.
    - repeat split.
      + intros t Ht. lia.
      + intros t _. apply get_zeros.
    - intros i ms Hi (Hl & Hlow & Hzero). unfold body. cbv zeta.
      pose (Q := fun ms' : list R =>
                   length ms' = 26%nat
                   /\ (forall t, t <> i -> get ms' t = get ms t)
                   /\ 0 <= get ms' i).
      assert (HQ : Q (for_loop 0 (length powerSpectrum)
                        (fun j melSpectrum =>
                           set melSpectrum i
                             (get melSpectrum i
                              + get powerSpectrum j * get (nth i melFilters []) j))
                        ms)).
      { apply (for_loop_invariant Q).
        - repeat split; auto. rewrite Hzero by lia. lra.
        - intros j ms' _ (Hl' & Hsame & Hpos). repeat split.
          + rewrite set_length_in_range; lia.
          + intros t Ht. rewrite get_set_other by lia. now apply Hsame.
          + rewrite get_set_same.
            pose proof (get_nonneg powerSpectrum j Hp). pose proof (Hw i j). nra. }
      destruct HQ as (Hl' & Hsame & Hpos). repeat split.
      + rewrite set_length_in_range; lia.
      + intros t Ht. destruct (Nat.eq_dec t i) as [->|Hne].
        * rewrite get_set_same. now apply ln_floor.
        * rewrite get_set_other by lia. rewrite Hsame by exact Hne.
          apply Hlow. lia.
      + intros t Ht. rewrite get_set_other by lia. rewrite Hsame by lia.
        apply Hzero. lia. }
  destruct H as (Hl & Hlow & _). split; [exact Hl|].
  apply Forall_by_get. intros t Ht. apply Hlow. lia.
Qed.

Lemma applyMelFilterBank_floor_witness :
  Forall (fun e => ln epsilon <= e) (applyMelFilterBank [4; 0; 1; 0] 8000).
Proof.
  apply (applyMelFilterBank_floor [4; 0; 1; 0] 8000).
  - lra.
  - repeat constructor; lra.
Defined.

(** ** Sums computed by loops *)

Lemma loop_sum (l : list R) (s0 : R) :
  for_loop 0 (length l) (fun n s => s + get l n) s0 = s0 + fold_right Rplus 0 l.
Proof.
  unfold for_loop. rewrite Nat.sub_0_r. revert s0.
  induction l as [|x l IH]; intros s0; simpl.
  - ring.
  - rewrite (fold_left_seq_shift (fun n s => s + get (x :: l) n)).
    rewrite (fold_left_seq_ext (fun i s => s + get (x :: l) (S i))
                               (fun i s => s + get l i)) by reflexivity.
    rewrite IH. unfold get. simpl. ring.
Qed.

(** X10.  The cosine transform returns 13 coefficients whatever the length
    of its input, and coefficient 0 is the sum of the input. *)
Theorem computeDCT_first_coefficient (melSpectrum : list R) :
  length (computeDCT melSpectrum) = 13%nat
  /\ get (computeDCT melSpectrum) 0 = fold_right Rplus 0 melSpectrum.
Proof.
  split; [apply computeDCT_length|].
  unfold computeDCT.
  rewrite (for_loop_push
             (fun k => for_loop 0 (length melSpectrum)
                         (fun n sum =>
                            sum + get melSpectrum n
                                  * cos (PI * INR k * (INR n + 0.5)
                                         / INR (length melSpectrum))) 0)).
  cbn [app]. unfold get at 1, numCoeffs_default. rewrite nth_map_seq by lia.
  rewrite <- (Rplus_0_l (fold_right Rplus 0 melSpectrum)), <- loop_sum.
  unfold for_loop. apply fold_left_seq_ext. intros n s _.
  replace (PI * INR 0 * (INR n + 0.5) / INR (length melSpectrum)) with 0
    by (simpl; unfold Rdiv; ring).
  rewrite cos_0. ring.
Qed.

(** ** The mean of feature vectors *)

Lemma get_pairwise_sum (avg feature : list R) (i : nat) :
  length feature = length avg ->
  get (map (fun p => fst p + snd p) (combine avg feature)) i
  = get avg i + get feature i.
Proof.
  unfold get. revert feature i.
  induction avg as [|x avg IH]; intros [|y feature] [|i] H; simpl in *;
    try lia; try lra.
  apply IH. lia.
Qed.

Lemma column_sums (n i : nat) (features : list (list R)) (acc : list R) :
  length acc = n ->
  Forall (fun f => length f = n) features ->
  let total :=
    fold_left
      (fun avg feature =>
         for_loop 0 n (fun i avg => set avg i (get avg i + get feature i)) avg)
      features acc in
  length total = n
  /\ get total i = get acc i + fold_right (fun f s => get f i + s) 0 features.
Proof.
  intros Hacc Hall. revert acc Hacc.
  induction Hall as [|f features Hf _ IH]; intros acc Hacc; cbn [fold_left fold_right].
  - split; [exact Hacc|ring].
  - pose proof (add_loop acc f) as Ha. rewrite Hacc in Ha.
    rewrite Ha by congruence.
    destruct (IH (map (fun p => fst p + snd p) (combine acc f))) as [Hl Hg].
    { rewrite length_map, length_combine. lia. }
    split; [exact Hl|]. rewrite Hg, get_pairwise_sum by congruence. ring.
Qed.

Lemma get_map_div (l : list R) (m : R) (i : nat) :
  get (map (fun x => x / m) l) i = get l i / m.
Proof.
  unfold get. revert i. induction l as [|x l IH]; intros [|i]; simpl; auto;
    unfold Rdiv; ring.
Qed.

(** X11.  For feature vectors of one common length, [averageFeatures]
    returns a vector of that length whose component [i] is the arithmetic
    mean of the components [i]; for no feature vector at all it throws. *)
Theorem averageFeatures_mean (first : list R) (rest : list (list R)) (i : nat) :
  Forall (fun f => length f = length first) rest ->
  averageFeatures [] = Throw TypeError
  /\ exists avg,
       averageFeatures (first :: rest) = Ok avg
       /\ length avg = length first
       /\ get avg i
          = fold_right (fun f s => get f i + s) 0 (first :: rest)
            / INR (S (length rest)).
Proof.
  intros Hall. split; [reflexivity|].
  unfold averageFeatures. eexists. split; [reflexivity|].
  destruct (column_sums (length first) i (first :: rest) (repeat 0 (length first)))
    as [Hl Hg].
  - apply repeat_length.
  - constructor; [reflexivity | exact Hall].
  - cbv zeta in Hl, Hg. split.
    + rewrite length_map. exact Hl.
    + rewrite get_map_div, Hg, get_zeros. cbn [length]. f_equal. ring.
Qed.

Lemma averageFeatures_mean_witness :
  exists avg, averageFeatures [[1; 2]; [3; 6]] = Ok avg
              /\ get avg 1 = (2 + (6 + 0)) / INR 2.
Proof.
  destruct (averageFeatures_mean [1; 2] [[3; 6]] 1) as (_ & avg & E & _ & Hg).
  - repeat constructor.
  - exists avg. split; [exact E | exact Hg].
Defined.

(** * Further properties of the whole extraction *)



(** X13.  Whatever the samples, a signal that holds at least one frame,
    framed with an odd frame length and a positive step, makes
    [extractMFCC] throw the [RangeError] of [new Array(N / 2)]. *)
Theorem extractMFCC_odd_frame_throws (audioBuffer : AudioBuffer) :
  (1 <= frameStep_of (sampleRate audioBuffer))%nat ->
  Nat.odd (frameLength_of (sampleRate audioBuffer)) = true ->
  (frameLength_of (sampleRate audioBuffer) <= length (channelData audioBuffer))%nat ->
  extractMFCC audioBuffer = Throw RangeError.
Proof. exact (extractMFCC_odd audioBuffer). Qed.

Lemma extractMFCC_odd_frame_throws_witness :
  extractMFCC (mkAudio (repeat 0.5 600) 22050) = Throw RangeError.
Proof.
  apply (extractMFCC_odd_frame_throws (mkAudio (repeat 0.5 600) 22050));
    cbn [channelData sampleRate];
    destruct frame_sizes_22050 as [El Es]; rewrite ?El, ?Es, ?repeat_length.
  - lia.
  - reflexivity.
  - lia.
Defined.



(** * Further properties of the embedding generator and the matcher *)

Lemma pad_loop_zeros (fuel : nat) (features : list R) :
  (128 <= fuel + length features)%nat ->
  pad_loop fuel features = features ++ repeat 0 (128 - length features).
Proof.
  revert features. induction fuel as [|fuel IH]; intros features H; cbn [pad_loop].
  - replace (128 - length features)%nat with O by lia.
    cbn [repeat]. now rewrite app_nil_r.
  - destruct (Nat.ltb_spec (length features) 128) as [Hlt|Hge].
    + rewrite IH by (rewrite length_app; cbn [length]; lia).
      rewrite length_app, <- app_assoc. cbn [length].
      replace (128 - length features)%nat with (S (128 - (length features + 1)))
        by lia.
      reflexivity.
    + replace (128 - length features)%nat with O by lia.
      cbn [repeat]. now rewrite app_nil_r.
Qed.

(** X15.  With a loaded model, the chain is always called on exactly 128
    features: the first 128 MFCC coefficients, followed by zeros when there
    are fewer; the embedding is the row it returns, or the MFCC vector when
    it throws. *)
Theorem extractDeepEmbedding_input (m : TfModel) (mfcc : list R) :
  let features := firstn 128 mfcc ++ repeat 0 (128 - length mfcc) in
  length features = 128%nat
  /\ extractDeepEmbedding true (Some m) mfcc
     = match embed m features with
       | Some row => Ok row
       | None => Ok mfcc
       end.
Proof.
  cbv zeta.
  assert (E : pad_loop 128 (slice mfcc 0 128)
              = firstn 128 mfcc ++ repeat 0 (128 - length mfcc)).
  { unfold slice. rewrite Nat.sub_0_r. cbn [skipn].
    rewrite pad_loop_zeros by lia.
    rewrite length_firstn. f_equal. f_equal. lia. }
  split.
  - rewrite <- E. apply model_input_length.
  - unfold extractDeepEmbedding. cbv zeta. rewrite E. unfold tf_chain.
    destruct (embed m _); reflexivity.
Qed.

Lemma dot_comm (a b : list R) : dot a b = dot b a.
Proof.
  revert b. induction a as [|x a IH]; intros [|y b]; simpl; auto.
  rewrite IH. ring.
Qed.

(** X16.  Cosine similarity is symmetric in its two embeddings, and it is 0
    as soon as one of them is empty. *)
Theorem cosineSimilarity_symmetric (a b : list R) :
  cosineSimilarity a b = cosineSimilarity b a
  /\ cosineSimilarity a [] = 0
  /\ cosineSimilarity [] b = 0.
Proof.
  unfold cosineSimilarity. rewrite !cosineSimilarity_eps_spec.
  unfold spec_cosine, common. split; [|split].
  - rewrite (Nat.min_comm (length b) (length a)).
    rewrite (dot_comm (firstn _ b)), (Rmult_comm (norm (firstn _ b))).
    reflexivity.
  - cbn [length]. rewrite Nat.min_0_r. cbn [firstn dot].
    unfold Rdiv. apply Rmult_0_l.
  - cbn [length Nat.min firstn dot]. unfold Rdiv. apply Rmult_0_l.
Qed.

Lemma decide_accept (t : R) (similarities : list R) (avg score : R) (accepted : bool) :
  decide t similarities = Ok (avg, score, accepted) ->
  Math_max similarities = Some score
  /\ (accepted = true <-> t < score).
Proof.
  unfold decide. destruct similarities as [|x rest]; [discriminate|].
  cbn [reduce_sum bind Math_max]. intros H. injection H as _ <- <-.
  split; [reflexivity|].
  destruct (Rlt_dec t (fold_left Rmax rest x)); split; auto; discriminate.
Qed.

(** X17.  Threshold monotonicity: on the same scores, average and maximum
    do not depend on the threshold, and a verdict that is a reject stays a
    reject under every higher threshold. *)
Theorem decide_threshold_monotone (t1 t2 : R) (similarities : list R)
  (avg score : R) :
  t1 <= t2 ->
  decide t1 similarities = Ok (avg, score, false) ->
  decide t2 similarities = Ok (avg, score, false).
Proof.
  intros Hle H. destruct (decide_accept _ _ _ _ _ H) as [_ Hacc].
  revert H. unfold decide. destruct similarities as [|x rest]; [discriminate|].
  cbn [reduce_sum bind Math_max]. intros H. injection H as <- <- Hd.
  destruct (Rlt_dec t2 (fold_left Rmax rest x)) as [Hlt|_]; [|reflexivity].
  exfalso. assert (Ht : t1 < fold_left Rmax rest x) by lra.
  apply Hacc in Ht. discriminate.
Qed.

Lemma decide_threshold_monotone_witness :
  decide 0.9 [0.5] = Ok (0.5 / INR 1, 0.5, false).
Proof.
  apply (decide_threshold_monotone 0.75 0.9 [0.5]).
  - lra.
  - unfold decide. cbn [reduce_sum bind Math_max fold_left length].
    destruct (Rlt_dec 0.75 0.5) as [H|_]; [exfalso; lra|reflexivity].
Defined.

(** * Further properties of the object *)

Lemma run_invariant (I : VoiceAuthenticator -> Prop) :
  (forall this a, I this -> I (step this a)) ->
  forall actions this, I this -> I (run this actions).
Proof.
  intros Hstep. unfold run.
  induction actions as [|a actions IH]; intros this H; simpl; auto.
Qed.

Lemma run_app (this : VoiceAuthenticator) (a b : list action) :
  run this (a ++ b) = run (run this a) b.
Proof. unfold run. apply fold_left_app. Qed.

Lemma recordVoiceSample_cases (this : VoiceAuthenticator) (c : capture) :
  (exists embedding,
      recordVoiceSample this c
      = mkVA (model this) (voiceEmbeddings this ++ [embedding])
             (S (recordingCount this)) (isLocked this) (threshold this)
             (modelLoaded this) (timers this) (dispatched this)
             (alerts this) (console this) (matcherCalls this))
  \/ recordVoiceSample this c = this
  \/ exists msg, recordVoiceSample this c = alert this msg.
Proof.
  unfold recordVoiceSample. destruct (negb (modelLoaded this)); [eauto|].
  destruct c as [|audioBuffer]; [eauto|].
  destruct (fingerprint this audioBuffer); eauto.
Qed.

(** X18.  In every state that an object can reach, the enrollment count is
    the number of enrolled embeddings. *)
Theorem count_tracks_profile (tf : option TfModel) (actions : list action) :
  recordingCount (run (constructor tf) actions)
  = length (voiceEmbeddings (run (constructor tf) actions)).
Proof.
  apply (run_invariant
           (fun this => recordingCount this = length (voiceEmbeddings this)));
    [|reflexivity].
  intros this a H. destruct a as [c|c| |]; cbn [step].
  - destruct (recordVoiceSample_cases this c) as [[e ->]|[->|[msg ->]]];
      cbn [recordingCount voiceEmbeddings alert]; auto.
    rewrite length_app, H. simpl. lia.
  - destruct (authenticateVoice_frame this c) as (-> & -> & _). exact H.
  - unfold run_timer. destruct (timers this) as [|[] rest]; exact H.
  - reflexivity.
Qed.

(** X19.  Enrollment is all or nothing.  [recordVoiceSample] never touches
    the lock flag, the timers or the dispatched events; it either appends one
    embedding and adds one to the count, or leaves both as they were; and
    with a loaded model a capture from which no feature vector comes out
    leaves the whole object as it was. *)
Theorem recordVoiceSample_all_or_nothing (this : VoiceAuthenticator) (c : capture) :
  let after := recordVoiceSample this c in
  isLocked after = isLocked this
  /\ timers after = timers this
  /\ dispatched after = dispatched this
  /\ ((exists embedding,
          voiceEmbeddings after = voiceEmbeddings this ++ [embedding]
          /\ recordingCount after = S (recordingCount this))
      \/ (voiceEmbeddings after = voiceEmbeddings this
          /\ recordingCount after = recordingCount this))
  /\ (forall audioBuffer,
        c = Recorded audioBuffer -> modelLoaded this = true ->
        (forall mfcc, extractMFCC audioBuffer <> Ok mfcc) ->
        after = this).
Proof.
  cbv zeta. split; [|split; [|split; [|split]]].
  - destruct (recordVoiceSample_cases this c) as [[e ->]|[->|[msg ->]]]; reflexivity.
  - destruct (recordVoiceSample_cases this c) as [[e ->]|[->|[msg ->]]]; reflexivity.
  - destruct (recordVoiceSample_cases this c) as [[e ->]|[->|[msg ->]]]; reflexivity.
  - destruct (recordVoiceSample_cases this c) as [[e ->]|[->|[msg ->]]].
    + left. exists e. split; reflexivity.
    + right. split; reflexivity.
    + right. split; reflexivity.
  - intros audioBuffer -> Hl Hno. unfold recordVoiceSample, fingerprint.
    rewrite Hl. cbn [negb].
    destruct (extractMFCC audioBuffer) as [mfcc| |]; [|reflexivity|reflexivity].
    exfalso. now apply (Hno mfcc).
Qed.

Lemma recordVoiceSample_all_or_nothing_witness :
  recordVoiceSample (constructor (Some (constant_model [1])))
                    (Recorded (mkAudio [0.5; -0.25; 0.125] 8000))
  = constructor (Some (constant_model [1])).
Proof.
  destruct (recordVoiceSample_all_or_nothing
              (constructor (Some (constant_model [1])))
              (Recorded (mkAudio [0.5; -0.25; 0.125] 8000)))
    as (_ & _ & _ & _ & H).
  apply (H (mkAudio [0.5; -0.25; 0.125] 8000)); [reflexivity|reflexivity|].
  intros mfcc E. rewrite extractMFCC_short in E; [discriminate|].
  cbn [channelData sampleRate]. rewrite (proj1 frame_sizes_8000). simpl. lia.
Defined.

(** X20.  A reset locks the object and empties the profile, and a second
    reset changes nothing more; but it leaves the pending timers alone, so an
    unlock scheduled before the reset still runs after it and unlocks an
    object whose profile is empty. *)
Theorem resetVoiceProfile_idempotent (this : VoiceAuthenticator) :
  resetVoiceProfile (resetVoiceProfile this) = resetVoiceProfile this
  /\ phase_of (resetVoiceProfile this) = Enrolling 0
  /\ voiceEmbeddings (resetVoiceProfile this) = []
  /\ timers (resetVoiceProfile this) = timers this
  /\ (timers this <> [] ->
      isLocked (run_timer (resetVoiceProfile this)) = false
      /\ voiceEmbeddings (run_timer (resetVoiceProfile this)) = []).
Proof.
  repeat split.
  - unfold run_timer, resetVoiceProfile. cbn [timers].
    destruct (timers this) as [|[] rest]; [congruence|reflexivity].
  - unfold run_timer, resetVoiceProfile. cbn [timers].
    destruct (timers this) as [|[] rest]; [congruence|reflexivity].
Qed.

Lemma resetVoiceProfile_idempotent_witness :
  isLocked
    (run_timer
       (resetVoiceProfile
          (authenticateVoice
             (run (constructor (Some (constant_model [1]))) enrollment)
             (Recorded silence)))) = false
  /\ voiceEmbeddings
       (run_timer
          (resetVoiceProfile
             (authenticateVoice
                (run (constructor (Some (constant_model [1]))) enrollment)
                (Recorded silence)))) = [].
Proof.
  destruct (resetVoiceProfile_idempotent
              (authenticateVoice
                 (run (constructor (Some (constant_model [1]))) enrollment)
                 (Recorded silence)))
    as (_ & _ & _ & _ & H).
  apply H. rewrite enrolled_fields.
  destruct (verify_accept_step 3 0 true [] [] []) as [es E]. rewrite E.
  discriminate.
Defined.

Lemma authenticateVoice_cases (this : VoiceAuthenticator) (c : capture) :
  (exists msg, authenticateVoice this c = alert this msg)
  \/ authenticateVoice this c = this
  \/ (exists n, authenticateVoice this c = count_matcher this n)
  \/ (exists n entries score accepted,
        (accepted = true <-> threshold this < score)
        /\ In (MaxSimilarity score) entries
        /\ authenticateVoice this c
           = let logged := console_log (count_matcher this n) entries in
             if accepted then setTimeout logged UnlockSystem else logged).
Proof.
  unfold authenticateVoice. destruct (_ =? _)%nat; [eauto|].
  destruct c as [|audioBuffer]; [eauto|].
  destruct (fingerprint this audioBuffer) as [embedding| |]; [|auto|auto].
  cbv zeta.
  change (threshold (count_matcher this (length (voiceEmbeddings this))))
    with (threshold this).
  destruct (decide _ _) as [[[avg score] accepted]| |] eqn:Ed; [|eauto|eauto].
  right. right. right.
  destruct (decide_accept _ _ _ _ _ Ed) as [_ Hacc].
  eexists _, _, score, accepted. split; [exact Hacc|]. split; [|reflexivity].
  simpl. auto.
Qed.

(** X21.  In every state that an object can reach, if it is unlocked or an
    unlock is pending, then some verification has logged a maximum
    similarity above 0.75: nothing but an accepted verification unlocks. *)
Theorem unlock_only_after_accept (tf : option TfModel) (actions : list action) :
  let this := run (constructor tf) actions in
  isLocked this = false \/ timers this <> [] ->
  exists score, In (MaxSimilarity score) (console this) /\ 0.75 < score.
Proof.
  cbv zeta.
  pose (I := fun this =>
               threshold this = 0.75
               /\ (isLocked this = false \/ timers this <> [] ->
                   exists score, In (MaxSimilarity score) (console this)
                                 /\ 0.75 < score)).
  assert (H : I (run (constructor tf) actions)); [|apply H].
  apply (run_invariant I).
  - intros this a [Ht Hi]. split; [now rewrite threshold_step|].
    destruct a as [c|c| |]; cbn [step].
    + destruct (recordVoiceSample_cases this c) as [[e ->]|[->|[msg ->]]];
        exact Hi.
    + destruct (authenticateVoice_cases this c)
        as [[msg ->]|[->|[[n ->]|(n & entries & score & accepted & Hacc & Hin & ->)]]];
        try exact Hi.
      cbv zeta. destruct accepted.
      * intros _. exists score. split.
        -- cbn [console setTimeout console_log]. apply in_or_app. now right.
        -- rewrite <- Ht. now apply Hacc.
      * intros Hu. destruct (Hi Hu) as (s & Hs & Hlt). exists s. split; [|exact Hlt].
        cbn [console console_log]. apply in_or_app. now left.
    + unfold run_timer. destruct (timers this) as [|[] rest] eqn:Et.
      * rewrite Et. exact Hi.
      * intros _. apply Hi. right. discriminate.
    + intros [Hf|Hn]; [discriminate|]. apply Hi. now right.
  - split; [reflexivity|]. intros [Hf|Hn]; [discriminate|now elim Hn].
Qed.

Lemma unlock_only_after_accept_witness :
  exists score,
    In (MaxSimilarity score)
       (console (run (constructor (Some (constant_model [1])))
                     (enrollment ++ verification)))
    /\ 0.75 < score.
Proof.
  apply (unlock_only_after_accept (Some (constant_model [1]))
           (enrollment ++ verification)).
  left. rewrite run_app, enrolled_fields. unfold verification, run.
  cbn [fold_left step].
  destruct (verify_accept_step 3 0 true [] [] []) as [es E]. rewrite E.
  cbn [app]. rewrite timer_step. reflexivity.
Defined.

(** X22.  When [tf.sequential] throws in the constructor, nothing that can
    happen afterwards enrolls an embedding, schedules an unlock or unlocks
    the object. *)
Theorem no_model_never_unlocks (actions : list action) :
  let this := run (constructor None) actions in
  isLocked this = true
  /\ voiceEmbeddings this = []
  /\ timers this = []
  /\ dispatched this = [].
Proof.
  cbv zeta.
  pose (I := fun this =>
               modelLoaded this = false /\ isLocked this = true
               /\ voiceEmbeddings this = [] /\ timers this = []
               /\ dispatched this = []).
  assert (H : I (run (constructor None) actions)); [|apply H].
  apply (run_invariant I); [|now repeat split].
  intros this a (Hm & Hl & Hv & Ht & Hd).
  destruct a as [c|c| |]; cbn [step].
  - unfold recordVoiceSample. rewrite Hm. cbn [negb]. now repeat split.
  - unfold authenticateVoice. rewrite Hv. cbn [length Nat.eqb]. now repeat split.
  - unfold run_timer. rewrite Ht. now repeat split.
  - now repeat split.
Qed.

(** * serialComm.js: properties *)

Lemma clearTimeout_In (h : nat) (l : list (nat * string)) (t : nat * string) :
  In t (Serial.clearTimeout h l) <-> In t l /\ fst t <> h.
Proof.
  unfold Serial.clearTimeout. rewrite filter_In. split; intros [H1 H2]; split; auto.
  - intros E. rewrite E, Nat.eqb_refl in H2. discriminate.
  - apply Bool.negb_true_iff, Nat.eqb_neq. exact H2.
Qed.




(** The timers that [sendDebounced] keeps. *)
Lemma kept_timers (this : Serial.SerialCommunicator) (id : string) (t : nat * string) :
  In t match Serial.lookup id (Serial.commandTimers this) with
       | Some handle =>
           if Nat.eqb handle 0 then Serial.pending this
           else Serial.clearTimeout handle (Serial.pending this)
       | None => Serial.pending this
       end ->
  In t (Serial.pending this)
  /\ (forall h, Serial.lookup id (Serial.commandTimers this) = Some h ->
                (1 <= h)%nat -> fst t <> h).
Proof.
  destruct (Serial.lookup id (Serial.commandTimers this)) as [handle|].
  - destruct (Nat.eqb_spec handle 0) as [->|Hne].
    + intros H. split; [exact H|]. intros h E Hh. injection E as <-. lia.
    + intros H. apply clearTimeout_In in H. destruct H as [Hin Hd].
      split; [exact Hin|]. intros h E _. injection E as <-. exact Hd.
  - intros H. split; [exact H|]. discriminate.
Qed.


Lemma sendCommand_frame (this : Serial.SerialCommunicator) (command : string)
  (delivered : bool) :
  let after := fst (Serial.sendCommand this command delivered) in
  Serial.pending after = Serial.pending this
  /\ Serial.nextTimer after = Serial.nextTimer this
  /\ Serial.commandTimers after = Serial.commandTimers this
  /\ Serial.writer after = Serial.writer this
  /\ Serial.isConnected after = Serial.isConnected this
  /\ Serial.announced after = Serial.announced this
  /\ (Serial.wire after = Serial.wire this
      \/ (Serial.writer this = true /\ Serial.isConnected this = true
          /\ delivered = true
          /\ Serial.wire after = Serial.wire this ++ [(command ++ Serial.newline)%string])).
Proof.
  unfold Serial.sendCommand.
  destruct (Serial.writer this) eqn:Ew, (Serial.isConnected this) eqn:Ec, delivered;
    cbn; rewrite ?Ew, ?Ec; repeat split; auto.
Qed.













Lemma serial_step_wire (this : Serial.SerialCommunicator) (a : Serial.action) :
  Serial.wire (Serial.step this a) = Serial.wire this
  \/ (Serial.writer this = true /\ Serial.isConnected this = true
      /\ exists command,
           Serial.wire (Serial.step this a)
           = Serial.wire this ++ [(command ++ Serial.newline)%string]).
Proof.
  destruct a as [r|id c|c d|d|h d|closed|delay]; cbn [Serial.step].
  - left. destruct r; reflexivity.
  - left. reflexivity.
  - destruct (sendCommand_frame this c d) as (_ & _ & _ & _ & _ & _ & [H|H]);
      [now left|right]. destruct H as (Hw & Hc & _ & H). eauto.
  - destruct (sendCommand_frame this "STOP" d) as (_ & _ & _ & _ & _ & _ & [H|H]);
      [now left|right]. destruct H as (Hw & Hc & _ & H). eauto.
  - unfold Serial.timer_fires. destruct (find _ _) as [[h' c]|]; [|now left].
    match goal with
    | |- context [Serial.sendCommand ?s c d] =>
        destruct (sendCommand_frame s c d) as (_ & _ & _ & _ & _ & _ & [H|H])
    end; [now left|right].
    destruct H as (Hw & Hc & _ & H). cbn in Hw, Hc, H. eauto.
  - left. unfold Serial.disconnect. destruct (_ && _); reflexivity.
  - left. reflexivity.
Qed.

(** X25.  Every action of a SerialCommunicator leaves the lines written so
    far in place and appends at most one line, which ends with a line feed;
    and it appends one only if the object has a writer and is connected. *)
Theorem wire_grows_by_lines (this : Serial.SerialCommunicator) (a : Serial.action) :
  Serial.wire (Serial.step this a) = Serial.wire this
  \/ (Serial.writer this = true /\ Serial.isConnected this = true
      /\ exists command,
           Serial.wire (Serial.step this a)
           = Serial.wire this ++ [(command ++ Serial.newline)%string]).
Proof. exact (serial_step_wire this a). Qed.

(** X26.  As long as no [connect] has opened a port, nothing is written:
    immediate commands, emergency stops and debounce timers leave the wire
    empty. *)
Theorem nothing_written_before_connect (actions : list Serial.action) :
  (forall a, In a actions -> a <> Serial.Connect Serial.PortOpens) ->
  Serial.wire (Serial.run Serial.constructor actions) = []
  /\ Serial.writer (Serial.run Serial.constructor actions) = false.
Proof.
  assert (G : forall actions this,
             (forall a, In a actions -> a <> Serial.Connect Serial.PortOpens) ->
             Serial.wire this = [] -> Serial.writer this = false ->
             Serial.wire (Serial.run this actions) = []
             /\ Serial.writer (Serial.run this actions) = false).
  { clear actions. unfold Serial.run.
    induction actions as [|a actions IH]; intros this Hno Hw Hwr; [now split|].
    cbn [fold_left]. apply IH.
    - intros b Hb. apply Hno. now right.
    - destruct (serial_step_wire this a) as [->|(Hwr' & _)]; [exact Hw|congruence].
    - assert (Ha : a <> Serial.Connect Serial.PortOpens) by (apply Hno; now left).
      destruct a as [r|id c|c d|d|h d|closed|delay]; cbn [Serial.step].
      + destruct r; [exact Hwr|exact Hwr|congruence].
      + exact Hwr.
      + unfold Serial.sendImmediate.
        now rewrite (proj1 (proj2 (proj2 (proj2 (sendCommand_frame this c d))))).
      + unfold Serial.emergencyStop.
        now rewrite (proj1 (proj2 (proj2 (proj2 (sendCommand_frame this "STOP" d))))).
      + unfold Serial.timer_fires. destruct (find _ _) as [[h' c]|]; [|exact Hwr].
        match goal with
        | |- context [Serial.sendCommand ?s c d] =>
            rewrite (proj1 (proj2 (proj2 (proj2 (sendCommand_frame s c d)))))
        end. exact Hwr.
      + unfold Serial.disconnect. destruct (_ && _); reflexivity.
      + exact Hwr. }
  intros Hno. apply G; [exact Hno|reflexivity|reflexivity].
Qed.

Lemma nothing_written_before_connect_witness :
  Serial.wire
    (Serial.run Serial.constructor
       [Serial.SendDebounced "base" "B:10"; Serial.TimerFires 1 true;
        Serial.SendImmediate "C:0" true; Serial.EmergencyStop true]) = [].
Proof.
  apply (nothing_written_before_connect
           [Serial.SendDebounced "base" "B:10"; Serial.TimerFires 1 true;
            Serial.SendImmediate "C:0" true; Serial.EmergencyStop true]).
  intros a [<-|[<-|[<-|[<-|[]]]]]; discriminate.
Defined.

(** * main.js: properties *)

(** X27.  When the unlock timer of the authenticator fires, every control
    is enabled exactly if the port is connected; when a port opens, every
    control is enabled exactly if the authenticator is unlocked. *)
Theorem controls_follow_events (this : Arm.RoboticArmController) (c : Arm.control) :
  (timers (Arm.voiceAuth this) <> [] ->
   Arm.disabled (Arm.step this (Arm.Voice Orchestrator.TimerFires)) c
   = negb (Serial.isConnected (Arm.serialComm this)))
  /\ Arm.disabled (Arm.step this (Arm.Port (Serial.Connect Serial.PortOpens))) c
     = isLocked (Arm.voiceAuth this).
Proof.
  split.
  - intros Ht. cbn [Arm.step Orchestrator.step]. unfold run_timer.
    destruct (timers (Arm.voiceAuth this)) as [|[] rest]; [congruence|].
    cbn [dispatched unlockSystem]. rewrite length_app. cbn [length].
    destruct (Nat.ltb_spec (length (dispatched (Arm.voiceAuth this)))
                (length (dispatched (Arm.voiceAuth this)) + 1)); [|lia].
    reflexivity.
  - cbn [Arm.step Serial.step Serial.connect Serial.announced].
    rewrite length_app. cbn [length].
    destruct (Nat.ltb_spec (length (Serial.announced (Arm.serialComm this)))
                (length (Serial.announced (Arm.serialComm this)) + 1)); [|lia].
    cbn. unfold getLockedState. now destruct (isLocked (Arm.voiceAuth this)).
Qed.

Lemma controls_follow_events_witness :
  Arm.disabled
    (Arm.step
       (Arm.mkArm (unlockSystem (Orchestrator.constructor None)) Serial.constructor
          (fun _ => "0"%string) (fun _ => "0"%string) (fun _ => true) 0)
       (Arm.Port (Serial.Connect Serial.PortOpens)))
    Arm.EmergencyStopBtn = false.
Proof.
  destruct (controls_follow_events
              (Arm.mkArm (unlockSystem (Orchestrator.constructor None))
                 Serial.constructor
                 (fun _ => "0"%string) (fun _ => "0"%string) (fun _ => true) 0)
              Arm.EmergencyStopBtn) as [_ H].
  exact H.
Defined.

(** X28.  An emergency stop that is confirmed and written to a connected
    port sends the line STOP, disables every control and shows its alert once;
    one that is not confirmed, or cannot be written, sends nothing and leaves
    every control and the alert count as they were. *)
Theorem emergency_stop_effect (this : Arm.RoboticArmController)
  (confirmed delivered : bool) :
  let after := Arm.handleEmergencyStop this confirmed delivered in
  let sent := confirmed && Serial.writer (Arm.serialComm this)
              && Serial.isConnected (Arm.serialComm this) && delivered in
  (sent = true ->
   Serial.wire (Arm.serialComm after)
   = Serial.wire (Arm.serialComm this) ++ [("STOP" ++ Serial.newline)%string]
   /\ (forall c, Arm.disabled after c = true)
   /\ Arm.stopAlerts after = S (Arm.stopAlerts this))
  /\ (sent = false ->
      Serial.wire (Arm.serialComm after) = Serial.wire (Arm.serialComm this)
      /\ (forall c, Arm.disabled after c = Arm.disabled this c)
      /\ Arm.stopAlerts after = Arm.stopAlerts this).
Proof.
  cbv zeta. unfold Arm.handleEmergencyStop, Serial.emergencyStop, Serial.sendCommand.
  destruct confirmed, (Serial.writer (Arm.serialComm this)),
    (Serial.isConnected (Arm.serialComm this)), delivered;
    cbn; split; intros H; try discriminate; repeat split.
Qed.

Lemma emergency_stop_effect_witness :
  Serial.wire
    (Arm.serialComm
       (Arm.handleEmergencyStop
          (Arm.mkArm (Orchestrator.constructor None)
             (Serial.connect Serial.constructor Serial.PortOpens)
             (fun _ => "0"%string) (fun _ => "0"%string) (fun _ => false) 0)
          true true))
  = [("STOP" ++ Serial.newline)%string].
Proof.
  destruct (emergency_stop_effect
              (Arm.mkArm (Orchestrator.constructor None)
                 (Serial.connect Serial.constructor Serial.PortOpens)
                 (fun _ => "0"%string) (fun _ => "0"%string) (fun _ => false) 0)
              true true) as [H _].
  destruct (H eq_refl) as [Hw _]. exact Hw.
Defined.

Lemma voice_accept_invariant (this : VoiceAuthenticator) (a : Orchestrator.action) :
  let I := fun va =>
             threshold va = 0.75
             /\ (isLocked va = false -> dispatched va <> [])
             /\ (timers va <> [] \/ dispatched va <> [] ->
                 exists score, In (MaxSimilarity score) (console va) /\ 0.75 < score) in
  I this -> I (Orchestrator.step this a).
Proof.
  cbv zeta. intros (Ht & Hl & Hi). split; [now rewrite threshold_step|].
  destruct a as [c|c| |]; cbn [Orchestrator.step].
  - destruct (recordVoiceSample_cases this c) as [[e ->]|[->|[msg ->]]];
      split; assumption.
  - destruct (authenticateVoice_cases this c)
      as [[msg ->]|[->|[[n ->]|(n & entries & score & accepted & Hacc & Hin & ->)]]];
      try (split; assumption).
    cbv zeta. destruct accepted.
    + split; [exact Hl|]. intros _. exists score. split.
      * cbn [console setTimeout console_log]. apply in_or_app. now right.
      * rewrite <- Ht. now apply Hacc.
    + split; [exact Hl|]. intros Hu. destruct (Hi Hu) as (s & Hs & Hlt).
      exists s. split; [|exact Hlt].
      cbn [console console_log]. apply in_or_app. now left.
  - unfold run_timer. destruct (timers this) as [|[] rest] eqn:Et.
    + split; [exact Hl|]. rewrite Et. exact Hi.
    + split.
      * intros _. cbn [dispatched unlockSystem]. intros E.
        apply app_eq_nil in E. destruct E as [_ E]. discriminate.
      * intros _. apply Hi. left. discriminate.
  - split; [discriminate|exact Hi].
Qed.

Lemma dispatched_grows (this : VoiceAuthenticator) (a : Orchestrator.action) :
  dispatched this <> [] -> dispatched (Orchestrator.step this a) <> [].
Proof.
  intros H. destruct a as [c|c| |]; cbn [Orchestrator.step].
  - destruct (recordVoiceSample_cases this c) as [[e ->]|[->|[msg ->]]]; exact H.
  - destruct (authenticateVoice_frame this c) as (_ & _ & _ & -> & _). exact H.
  - unfold run_timer. destruct (timers this) as [|[] rest]; [exact H|].
    cbn [dispatched unlockSystem]. intros E. apply app_eq_nil in E. tauto.
  - exact H.
Qed.

Lemma send_isConnected (this : Serial.SerialCommunicator) (command : string)
  (delivered : bool) :
  Serial.isConnected (fst (Serial.sendCommand this command delivered))
  = Serial.isConnected this.
Proof. apply (sendCommand_frame this command delivered). Qed.

Lemma send_announced (this : Serial.SerialCommunicator) (command : string)
  (delivered : bool) :
  Serial.announced (fst (Serial.sendCommand this command delivered))
  = Serial.announced this.
Proof. apply (sendCommand_frame this command delivered). Qed.

Lemma serial_announce_invariant (this : Serial.SerialCommunicator)
  (a : Serial.action) :
  (Serial.isConnected this = true ->
   In "arduinoConnected"%string (Serial.announced this)) ->
  (In "arduinoConnected"%string (Serial.announced this) ->
   In "arduinoConnected"%string (Serial.announced (Serial.step this a)))
  /\ (Serial.isConnected (Serial.step this a) = true ->
      In "arduinoConnected"%string (Serial.announced (Serial.step this a))).
Proof.
  intros H. destruct a as [r|id c|c d|d|h d|closed|delay]; cbn [Serial.step].
  - destruct r; cbn [Serial.connect Serial.announced Serial.isConnected].
    + split; auto.
    + split; auto.
    + split; intros _; apply in_or_app; right; now left.
  - split; auto.
  - unfold Serial.sendImmediate.
    destruct (sendCommand_frame this c d) as (_ & _ & _ & _ & -> & -> & _).
    split; auto.
  - unfold Serial.emergencyStop.
    destruct (sendCommand_frame this "STOP" d) as (_ & _ & _ & _ & -> & -> & _).
    split; auto.
  - unfold Serial.timer_fires. destruct (find _ _) as [[h' c]|]; [|split; auto].
    match goal with
    | |- context [Serial.sendCommand ?s c d] =>
        destruct (sendCommand_frame s c d) as (_ & _ & _ & _ & -> & -> & _)
    end. split; auto.
  - unfold Serial.disconnect. destruct (_ && _); split; auto; discriminate.
  - split; auto.
Qed.

(** X29.  On a page whose controls all start disabled, whatever happens, a
    control is enabled only after the authenticator has logged a maximum
    similarity above 0.75 and the serial port has been opened. *)
Theorem controls_need_accept_and_port (tf : option TfModel)
  (html_value : Arm.slider -> string) (html_disabled : Arm.control -> bool)
  (actions : list Arm.action) (c : Arm.control) :
  (forall c', html_disabled c' = true) ->
  let this := Arm.run (Arm.constructor tf html_value html_disabled) actions in
  Arm.disabled this c = false ->
  (exists score,
      In (MaxSimilarity score) (console (Arm.voiceAuth this)) /\ 0.75 < score)
  /\ In "arduinoConnected"%string (Serial.announced (Arm.serialComm this)).
Proof.
  intros Hhtml. cbv zeta.
  pose (Iv := fun va =>
                threshold va = 0.75
                /\ (isLocked va = false -> dispatched va <> [])
                /\ (timers va <> [] \/ dispatched va <> [] ->
                    exists score, In (MaxSimilarity score) (console va)
                                  /\ 0.75 < score)).
  pose (Is := fun sc => Serial.isConnected sc = true ->
                        In "arduinoConnected"%string (Serial.announced sc)).
  pose (J := fun this =>
               Iv (Arm.voiceAuth this) /\ Is (Arm.serialComm this)
               /\ ((exists c', Arm.disabled this c' = false) ->
                   dispatched (Arm.voiceAuth this) <> []
                   /\ In "arduinoConnected"%string
                         (Serial.announced (Arm.serialComm this)))).
  assert (HJ : J (Arm.run (Arm.constructor tf html_value html_disabled) actions)).
  { unfold Arm.run.
    assert (G : forall actions this, J this -> J (fold_left Arm.step actions this)).
    { clear. intros actions. induction actions as [|a actions IH]; intros this HJ;
        [exact HJ|]. cbn [fold_left]. apply IH. clear IH actions.
      destruct HJ as (Hv & Hs & Hd).
      destruct a as [v|p|s v|d|d|cf d|d1 d2 d3 d4]; cbn [Arm.step].
      - pose proof (voice_accept_invariant (Arm.voiceAuth this) v Hv) as Hv'.
        cbv zeta in Hv'.
        destruct (Nat.ltb_spec (length (dispatched (Arm.voiceAuth this)))
                    (length (dispatched (Orchestrator.step (Arm.voiceAuth this) v))))
          as [Hlt|Hge].
        + split; [exact Hv'|]. split; [exact Hs|].
          intros [c' Hc']. cbn in Hc'. split.
          * intros E. cbn in E. rewrite E in Hlt. simpl in Hlt. lia.
          * apply Hs. cbn. unfold Serial.getConnectionState in Hc'.
            destruct (Serial.isConnected (Arm.serialComm this)); [reflexivity|].
            rewrite Bool.andb_false_r in Hc'. discriminate.
        + split; [exact Hv'|]. split; [exact Hs|].
          intros Hex. destruct (Hd Hex) as [Hne Hin]. split; [|exact Hin].
          now apply dispatched_grows.
      - destruct (serial_announce_invariant (Arm.serialComm this) p Hs) as [Hmono Hs'].
        destruct (Nat.ltb_spec (length (Serial.announced (Arm.serialComm this)))
                    (length (Serial.announced (Serial.step (Arm.serialComm this) p))))
          as [Hlt|Hge].
        + split; [exact Hv|]. split; [exact Hs'|].
          intros [c' Hc']. cbn in Hc'. unfold getLockedState in Hc'.
          destruct (isLocked (Arm.voiceAuth this)) eqn:El; [discriminate|].
          split; [now apply Hv|]. apply Hs'.
          unfold Serial.getConnectionState in Hc'.
          destruct (Serial.isConnected _); [reflexivity|discriminate].
        + split; [exact Hv|]. split; [exact Hs'|].
          intros Hex. destruct (Hd Hex) as [Hne Hin]. split; [exact Hne|].
          now apply Hmono.
      - split; [exact Hv|]. split; [exact Hs|]. exact Hd.
      - split; [exact Hv|]. split.
        + unfold Arm.clawOpen_click, Is. cbn [Arm.serialComm].
          unfold Serial.sendImmediate.
          destruct (sendCommand_frame (Arm.serialComm this) "C:0" d)
            as (_ & _ & _ & _ & -> & -> & _). exact Hs.
        + unfold Arm.clawOpen_click. cbn [Arm.serialComm Arm.voiceAuth Arm.disabled].
          unfold Serial.sendImmediate.
          destruct (sendCommand_frame (Arm.serialComm this) "C:0" d)
            as (_ & _ & _ & _ & _ & -> & _). exact Hd.
      - split; [exact Hv|]. split.
        + unfold Arm.clawClose_click, Is. cbn [Arm.serialComm].
          unfold Serial.sendImmediate.
          destruct (sendCommand_frame (Arm.serialComm this) "C:1" d)
            as (_ & _ & _ & _ & -> & -> & _). exact Hs.
        + unfold Arm.clawClose_click. cbn [Arm.serialComm Arm.voiceAuth Arm.disabled].
          unfold Serial.sendImmediate.
          destruct (sendCommand_frame (Arm.serialComm this) "C:1" d)
            as (_ & _ & _ & _ & _ & -> & _). exact Hd.
      - unfold Arm.handleEmergencyStop, Serial.emergencyStop.
        destruct cf; [|exact (conj Hv (conj Hs Hd))].
        pose proof (sendCommand_frame (Arm.serialComm this) "STOP" d) as Hf.
        cbv zeta in Hf. destruct Hf as (_ & _ & _ & _ & Hc & Ha & _).
        destruct (Serial.sendCommand (Arm.serialComm this) "STOP" d)
          as [serial success]. cbn [fst] in Hc, Ha.
        destruct success; unfold Arm.disableAllControls.
        * split; [exact Hv|]. split.
          -- unfold Is in *. cbn. now rewrite Hc, Ha.
          -- cbn. intros [c' Hc']. discriminate.
        * split; [exact Hv|]. split.
          -- unfold Is in *. cbn. now rewrite Hc, Ha.
          -- cbn. rewrite Ha. exact Hd.
      - unfold Arm.resetToDefault. cbv zeta.
        cbn [Arm.voiceAuth Arm.serialComm Arm.disabled].
        unfold Serial.sendImmediate.
        split; [exact Hv|]. split.
        + unfold Is in *. cbv beta in *. cbn [Arm.serialComm].
          now rewrite !send_isConnected, !send_announced.
        + cbn [Arm.serialComm Arm.voiceAuth Arm.disabled].
          rewrite !send_announced. exact Hd. }
    apply G. split; [|split].
    - split; [reflexivity|]. split; [discriminate|].
      intros [H|H]; now elim H.
    - intros H. discriminate.
    - intros [c' Hc']. cbn in Hc'. rewrite Hhtml in Hc'. discriminate. }
  intros Hc. destruct HJ as ((_ & _ & Hacc) & _ & Hd).
  destruct (Hd (ex_intro _ c Hc)) as [Hne Hin]. split; [|exact Hin].
  apply Hacc. now right.
Qed.

Lemma arm_voice_run (vs : list Orchestrator.action) (this : Arm.RoboticArmController) :
  Arm.voiceAuth (Arm.run this (map Arm.Voice vs))
  = Orchestrator.run (Arm.voiceAuth this) vs
  /\ Arm.serialComm (Arm.run this (map Arm.Voice vs)) = Arm.serialComm this.
Proof.
  unfold Arm.run, Orchestrator.run. revert this.
  induction vs as [|v vs IH]; intros this; [now split|].
  cbn [map fold_left]. destruct (IH (Arm.step this (Arm.Voice v))) as [E1 E2].
  rewrite E1, E2. cbn [Arm.step].
  destruct (_ <? _)%nat; split; reflexivity.
Qed.

Lemma port_opens_enables (this : Arm.RoboticArmController) (c : Arm.control) :
  Arm.disabled (Arm.step this (Arm.Port (Serial.Connect Serial.PortOpens))) c
  = isLocked (Arm.voiceAuth this).
Proof.
  cbn [Arm.step Serial.step Serial.connect Serial.announced].
  rewrite length_app. cbn [length].
  destruct (Nat.ltb_spec (length (Serial.announced (Arm.serialComm this)))
              (length (Serial.announced (Arm.serialComm this)) + 1)); [|lia].
  cbn. unfold getLockedState. now destruct (isLocked (Arm.voiceAuth this)).
Qed.

Lemma arm_run_snoc (this : Arm.RoboticArmController) (l : list Arm.action)
  (a : Arm.action) :
  Arm.run this (l ++ [a]) = Arm.step (Arm.run this l) a.
Proof. unfold Arm.run. now rewrite fold_left_app. Qed.

Lemma controls_need_accept_and_port_witness :
  exists score,
    In (MaxSimilarity score)
       (console
          (Arm.voiceAuth
             (Arm.run
                (Arm.constructor (Some (constant_model [1]))
                   (fun _ => "0"%string) (fun _ => true))
                (map Arm.Voice (enrollment ++ verification)
                 ++ [Arm.Port (Serial.Connect Serial.PortOpens)]))))
    /\ 0.75 < score.
Proof.
  pose proof (controls_need_accept_and_port (Some (constant_model [1]))
                (fun _ => "0"%string) (fun _ => true)
                (map Arm.Voice (enrollment ++ verification)
                 ++ [Arm.Port (Serial.Connect Serial.PortOpens)])
                Arm.EmergencyStopBtn) as H.
  cbv zeta in H. destruct H as [H1 _].
  - reflexivity.
  - rewrite arm_run_snoc, port_opens_enables.
    rewrite (proj1 (arm_voice_run _ _)). cbn [Arm.voiceAuth Arm.constructor].
    rewrite run_app, enrolled_fields. unfold verification, Orchestrator.run.
    cbn [fold_left Orchestrator.step].
    destruct (verify_accept_step 3 0 true [] [] []) as [es E]. rewrite E.
    cbn [app]. rewrite timer_step. reflexivity.
  - exact H1.
Defined.

Lemma find_newest (n : nat) (c : string) (T : list (nat * string)) :
  (forall t, In t T -> (fst t < n)%nat) ->
  find (fun t => Nat.eqb (fst t) n) (T ++ [(n, c)]) = Some (n, c).
Proof.
  induction T as [|t T IH]; intros H; cbn [app find fst].
  - now rewrite Nat.eqb_refl.
  - destruct (Nat.eqb_spec (fst t) n) as [E|_].
    + specialize (H t (or_introl eq_refl)). lia.
    + apply IH. intros t' Ht'. apply H. now right.
Qed.

Lemma fire_newest (this : Serial.SerialCommunicator) (id command : string) :
  Serial.well_formed this ->
  Serial.writer this = true -> Serial.isConnected this = true ->
  Serial.wire (Serial.timer_fires (Serial.sendDebounced this id command)
                 (Serial.nextTimer this) true)
  = Serial.wire this ++ [(command ++ Serial.newline)%string]
  /\ Serial.announced (Serial.timer_fires (Serial.sendDebounced this id command)
                         (Serial.nextTimer this) true)
     = Serial.announced this.
Proof.
  intros (H1 & H2 & _) Hw Hc. unfold Serial.timer_fires.
  assert (Hfind : find (fun t => Nat.eqb (fst t) (Serial.nextTimer this))
                    (Serial.pending (Serial.sendDebounced this id command))
                  = Some (Serial.nextTimer this, command)).
  { cbn [Serial.sendDebounced Serial.pending]. apply find_newest.
    intros t Ht. apply kept_timers in Ht. destruct Ht as [Hin _].
    specialize (H2 t Hin). lia. }
  rewrite Hfind. unfold Serial.sendCommand.
  cbn [Serial.writer Serial.isConnected Serial.sendDebounced].
  rewrite Hw, Hc. cbn. split; reflexivity.
Qed.

(** X30.  [resetVoiceProfile] locks the authenticator again but raises no
    event, so controls that were enabled stay enabled: on a connected port a
    slider movement made after the reset is still written to the arm when its
    debounce timer fires. *)
Theorem reset_leaves_controls_enabled (this : Arm.RoboticArmController)
  (s : Arm.slider) (v : string) :
  (forall c, Arm.disabled this c = false) ->
  let after := Arm.step this (Arm.Voice ResetVoiceProfile) in
  getLockedState (Arm.voiceAuth after) = true
  /\ (forall c, Arm.disabled after c = false)
  /\ (Serial.well_formed (Arm.serialComm this) ->
      Serial.writer (Arm.serialComm this) = true ->
      Serial.isConnected (Arm.serialComm this) = true ->
      Serial.wire
        (Arm.serialComm
           (Arm.run after
              [Arm.SliderInput s v;
               Arm.Port (Serial.TimerFires
                           (Serial.nextTimer (Arm.serialComm this)) true)]))
      = Serial.wire (Arm.serialComm this)
        ++ [((Arm.letter_of s ++ v) ++ Serial.newline)%string]).
Proof.
  intros Hen. cbv zeta. cbn [Arm.step Orchestrator.step].
  cbn [dispatched resetVoiceProfile]. rewrite Nat.ltb_irrefl.
  split; [reflexivity|]. split; [exact Hen|].
  intros Hwf Hw Hc. unfold Arm.run.
  cbn [fold_left Arm.step Arm.slider_input Arm.serialComm Serial.step].
  destruct (fire_newest (Arm.serialComm this) (Arm.id_of s) (Arm.letter_of s ++ v)
              Hwf Hw Hc) as [Ewire Eann].
  rewrite Eann. cbn [Serial.sendDebounced Serial.announced].
  rewrite Nat.ltb_irrefl. cbn [Arm.serialComm]. exact Ewire.
Qed.

Lemma reset_leaves_controls_enabled_witness :
  getLockedState
    (Arm.voiceAuth
       (Arm.step
          (Arm.mkArm (unlockSystem (Orchestrator.constructor None))
             (Serial.connect Serial.constructor Serial.PortOpens)
             (fun _ => "0"%string) (fun _ => "0"%string) (fun _ => false) 0)
          (Arm.Voice ResetVoiceProfile))) = true
  /\ Arm.disabled
       (Arm.step
          (Arm.mkArm (unlockSystem (Orchestrator.constructor None))
             (Serial.connect Serial.constructor Serial.PortOpens)
             (fun _ => "0"%string) (fun _ => "0"%string) (fun _ => false) 0)
          (Arm.Voice ResetVoiceProfile))
       (Arm.SliderOf Arm.Base) = false.
Proof.
  destruct (reset_leaves_controls_enabled
              (Arm.mkArm (unlockSystem (Orchestrator.constructor None))
                 (Serial.connect Serial.constructor Serial.PortOpens)
                 (fun _ => "0"%string) (fun _ => "0"%string) (fun _ => false) 0)
              Arm.Base "42") as (Hl & Hd & _).
  - reflexivity.
  - split; [exact Hl | apply Hd].
Defined.
